(** * Vlaggen-quiz: the quiz engine of [src/lib/quiz-engine.js]

    A shallow embedding of the engine (shuffle, Question,
    QuestionGenerator, QuizGame) and the properties of its
    specification.

    JavaScript arrays are mutable objects that are passed by reference:
    [shuffle] permutes its argument in place and returns the same
    reference.  The arrays of country records therefore live in a store
    and are handled through their addresses; spreading, [filter] and
    [slice] allocate a new array.  [Math.random] is an oracle whose
    draws are consumed one by one. *)

From Stdlib Require Import ZArith String Ascii List Sorted Permutation Lia.
From Stdlib Require QArith.
From stdpp Require Import base tactics option list functions sorting strings.

Local Open Scope string_scope.
Local Open Scope list_scope.
Local Open Scope nat_scope.

(** ** Constants *)

(** [const QUESTIONS_PER_ROUND = 10] *)
Definition QUESTIONS_PER_ROUND : Z := 10%Z.
(** [const OPTIONS_COUNT = 4] *)
Definition OPTIONS_COUNT : nat := 4.

(** ** Data model *)

(** A record of the catalogue [countries.json].  No field of a country
    is ever assigned by the engine, so a record is a value. *)
Record Country : Type := mkCountry {
  code : string;
  name : string;
  continent : string
}.

Global Instance Country_eq_dec : EqDecision Country.
Proof. solve_decision. Defined.

(** The address of an array of country records. *)
Definition loc : Type := nat.

(** [class Question]: the constructor stores the two arguments and
    derives [correctCode]; [options] is a reference to the array that
    was passed in. *)
Record Question : Type := mkQuestion {
  country : Country;
  options : loc;
  correctCode : string
}.

(** [new Question(country, options)] *)
Definition new_Question (c : Country) (opts : loc) : Question :=
  {| country := c; options := opts; correctCode := code c |}.

(** [isCorrect(selectedCode)]: [selectedCode === this.correctCode] *)
Definition isCorrect (q : Question) (selectedCode : string) : bool :=
  bool_decide (selectedCode = correctCode q).

(** ** The world: array store and random oracle *)

Record World : Type := mkWorld {
  arrays : loc → list Country;  (* contents of every array object *)
  next : loc;                   (* first address not yet allocated *)
  draws : nat → Z;              (* the draws of Math.random, in order *)
  tick : nat                    (* how many draws have been consumed *)
}.

(** Computations that read and update the world. *)
Definition M (A : Type) : Type := World → A * World.

Global Instance M_ret : MRet M := λ A (a : A) w, (a, w).
Global Instance M_bind : MBind M :=
  λ A B (f : A → M B) (m : M A) w, let (a, w') := m w in f a w'.

(** *** Array primitives *)

(** Read the elements of the array at [a]. *)
Definition array_get (a : loc) : M (list Country) :=
  λ w, (arrays w a, w).

(** Overwrite the elements of the array at [a]. *)
Definition array_set (a : loc) (elems : list Country) : M unit :=
  λ w, (tt, {| arrays := <[a := elems]> (arrays w); next := next w;
               draws := draws w; tick := tick w |}).

(** Allocate a new array holding [elems]. *)
Definition array_new (elems : list Country) : M loc :=
  λ w, (next w, {| arrays := <[next w := elems]> (arrays w);
                   next := S (next w);
                   draws := draws w; tick := tick w |}).

(** [array.length] *)
Definition array_length (a : loc) : M nat :=
  elems ← array_get a; mret (length elems).

(** [[...array]] *)
Definition array_spread (a : loc) : M loc :=
  elems ← array_get a; array_new elems.

(** [array.filter(p)] *)
Definition array_filter (P : Country → Prop) `{∀ c, Decision (P c)}
    (a : loc) : M loc :=
  elems ← array_get a; array_new (filter P elems).

(** The elements [array.slice(0, end)] keeps: a negative [end] counts
    from the end of the array, and the bound is clamped to the array. *)
Definition slice0 {A} (finish : Z) (l : list A) : list A :=
  let len := Z.of_nat (length l) in
  let final := if (finish <? 0)%Z then Z.max (len + finish) 0
               else Z.min finish len in
  take (Z.to_nat final) l.

(** [array.slice(0, end)] *)
Definition array_slice0 (a : loc) (finish : Z) : M loc :=
  elems ← array_get a; array_new (slice0 finish elems).

(** [[x, ...array]] *)
Definition array_cons (x : Country) (a : loc) : M loc :=
  elems ← array_get a; array_new (x :: elems).

(** [[array[i], array[j]] = [array[j], array[i]]]: the right-hand side is
    evaluated first, then [array[i]] and [array[j]] are assigned in this
    order.  Both indices are inside the array wherever [shuffle] swaps
    (see [random_floor_lt]); outside, nothing is modelled. *)
Definition array_swap (a : loc) (i j : nat) : M unit :=
  elems ← array_get a;
  match elems !! j, elems !! i with
  | Some aj, Some ai => array_set a (<[j := ai]> (<[i := aj]> elems))
  | _, _ => mret tt
  end.

(** *** Randomness *)

(** [Math.random()] returns a fraction in [0, 1) with 53 significant
    bits.  A draw [d] of the oracle stands for [(d mod 2^53) / 2^53].
    The properties below hold for every oracle, and every index that
    [Math.floor(Math.random() * n)] can take is the outcome of some draw
    (see [random_floor_onto]). *)
Definition random_resolution : Z := (2 ^ 53)%Z.

Definition Math_random : M Z :=
  λ w, ((draws w (tick w) mod random_resolution)%Z,
        {| arrays := arrays w; next := next w;
           draws := draws w; tick := S (tick w) |}).

(** [Math.floor(Math.random() * n)] *)
Definition random_floor (n : nat) : M nat :=
  r ← Math_random;
  mret (Z.to_nat (r * Z.of_nat n / random_resolution)).

(** ** shuffle *)

(** The loop [for (let i = array.length - 1; i > 0; i--)], by recursion
    on the loop variable [i]. *)
Fixpoint shuffle_loop (a : loc) (i : nat) : M unit :=
  match i with
  | 0 => mret tt
  | S i' =>
      j ← random_floor (i + 1);
      _ ← array_swap a i j;
      shuffle_loop a i'
  end.

(** [function shuffle(array)]: permutes in place, returns its argument. *)
Definition shuffle (a : loc) : M loc :=
  len ← array_length a;
  _ ← shuffle_loop a (len - 1);
  mret a.

(** ** QuestionGenerator *)

(** [array.map(f)] for a callback with effects: the length is read once,
    the elements are read one index at a time, the callback runs between
    the reads; an index that is no longer in the array is skipped (the
    callback of [generate] never shortens the array, see
    [array_map_loop_spec]).  The array of results is built once and
    never written again, so it is a list. *)
Fixpoint array_map_loop {B} (f : Country → M B) (a : loc) (k n : nat)
    : M (list B) :=
  match n with
  | 0 => mret []
  | S n' =>
      elems ← array_get a;
      match elems !! k with
      | Some x =>
          y ← f x;
          ys ← array_map_loop f a (S k) n';
          mret (y :: ys)
      | None => array_map_loop f a (S k) n'
      end
  end.

Definition array_map {B} (f : Country → M B) (a : loc) : M (list B) :=
  len ← array_length a;
  array_map_loop f a 0 len.

Module QuestionGenerator.

(** The callback of [selected.map] in [generate]. *)
Definition make_question (pool : loc) (c : Country) : M Question :=
  filtered ← array_filter (λ c', code c' ≠ code c) pool;
  shuffled ← shuffle filtered;
  distractors ← array_slice0 shuffled (Z.of_nat (OPTIONS_COUNT - 1));
  fresh ← array_cons c distractors;
  opts ← shuffle fresh;
  mret (new_Question c opts).

(** [static generate(pool, count = QUESTIONS_PER_ROUND)] *)
Definition generate (pool : loc) (count : Z) : M (list Question) :=
  copy ← array_spread pool;
  shuffled ← shuffle copy;
  selected ← array_slice0 shuffled count;
  array_map (make_question pool) selected.

End QuestionGenerator.
Import QuestionGenerator.

(** ** QuizGame *)

(** What a method call completes with: a value, or a thrown exception. *)
Inductive Exception : Type :=
  | TooFewCountries (size : nat) (selected : option string)
      (* [new Error(`Te weinig landen (${pool.length}) voor continent ...`)] *)
  | TypeError.
      (* a property read on [undefined] *)

Inductive Completion (A : Type) : Type :=
  | Normal (a : A)
  | Throw (e : Exception).
Arguments Normal {A} a.
Arguments Throw {A} e.

(** The fields of a [QuizGame] instance.  [questions] is only ever
    replaced as a whole (by the constructor and by [start]).
    [currentIndex] and [score] are counters, far below the 2^53 up to
    which a JavaScript number counts exactly: natural numbers. *)
Record QuizGame : Type := mkQuizGame {
  allCountries : loc;
  questions : list Question;
  currentIndex : nat;
  score : nat;
  answered : bool
}.

(** [constructor(allCountries)] *)
Definition new_QuizGame (catalog : loc) : QuizGame :=
  {| allCountries := catalog; questions := []; currentIndex := 0;
     score := 0; answered := false |}.

(** The truthiness of a [string|null] argument: [null] and the empty
    string are falsy. *)
Definition truthy (selected : option string) : bool :=
  match selected with
  | None => false
  | Some s => negb (bool_decide (s = ""))
  end.

(** The test [continent && continent !== "all"] of [start]. *)
Definition wants_filter (selected : option string) : bool :=
  truthy selected && negb (bool_decide (selected = Some "all")).

(** The pool expression of [start]: a filtered array or a spread copy,
    a new array in both branches. *)
Definition start_pool (g : QuizGame) (selected : option string) : M loc :=
  if wants_filter selected
  then array_filter (λ c, Some (continent c) = selected) (allCountries g)
  else array_spread (allCountries g).

(** [start(continent = null)]; the argument is [selected] here, as
    [continent] is the field of a country. *)
Definition start (selected : option string) (g : QuizGame)
    : M (Completion unit * QuizGame) :=
  pool ← start_pool g selected;
  len ← array_length pool;
  if bool_decide (len < OPTIONS_COUNT)
  then mret (Throw (TooFewCountries len selected), g)
  else
    qs ← QuestionGenerator.generate pool QUESTIONS_PER_ROUND;
    mret (Normal tt,
          {| allCountries := allCountries g; questions := qs;
             currentIndex := 0; score := 0; answered := false |}).

(** [get currentQuestion()] *)
Definition currentQuestion (g : QuizGame) : option Question :=
  if bool_decide (length (questions g) ≤ currentIndex g) then None
  else questions g !! currentIndex g.

(** [get questionNumber()] *)
Definition questionNumber (g : QuizGame) : nat := currentIndex g + 1.

(** [get totalQuestions()] *)
Definition totalQuestions (g : QuizGame) : nat := length (questions g).

(** [get isGameOver()] *)
Definition isGameOver (g : QuizGame) : bool :=
  bool_decide (length (questions g) ≤ currentIndex g).

(** The value [submitAnswer] returns: [{ correct, correctCode }]. *)
Record AnswerResult : Type := mkAnswerResult {
  correct : bool;
  result_correctCode : string
}.

(** [submitAnswer(selectedCode)]: [null] is [None].  Reading
    [this.questions[this.currentIndex]] past the end gives [undefined],
    and the call [question.isCorrect] on it throws a [TypeError], after
    [answered] was set. *)
Definition submitAnswer (selectedCode : string) (g : QuizGame)
    : Completion (option AnswerResult) * QuizGame :=
  if answered g then (Normal None, g)
  else
    let g1 := {| allCountries := allCountries g; questions := questions g;
                 currentIndex := currentIndex g; score := score g;
                 answered := true |} in
    match questions g1 !! currentIndex g1 with
    | None => (Throw TypeError, g1)
    | Some question =>
        let ok := isCorrect question selectedCode in
        let g2 := if ok
                  then {| allCountries := allCountries g1;
                          questions := questions g1;
                          currentIndex := currentIndex g1;
                          score := score g1 + 1;
                          answered := answered g1 |}
                  else g1 in
        (Normal (Some {| correct := ok;
                         result_correctCode := correctCode question |}), g2)
    end.

(** [nextQuestion()] *)
Definition nextQuestion (g : QuizGame) : bool * QuizGame :=
  let g1 := {| allCountries := allCountries g; questions := questions g;
               currentIndex := currentIndex g + 1; score := score g;
               answered := false |} in
  (negb (isGameOver g1), g1).

(** *** continents *)

(** [[...new Set(array)]]: the elements in the order of their first
    occurrence. *)
Fixpoint set_insert_all (seen : list string) (l : list string) : list string :=
  match l with
  | [] => seen
  | x :: l' =>
      if bool_decide (x ∈ seen) then set_insert_all seen l'
      else set_insert_all (seen ++ [x]) l'
  end.

Definition spread_new_Set (l : list string) : list string :=
  set_insert_all [] l.

(** The order of [sort()] without a comparator: strings are compared
    code unit by code unit, which is [String.compare] on the labels of
    the catalogue (ASCII). *)
Definition string_le (s1 s2 : string) : Prop := String.leb s1 s2 = true.
Definition string_lt (s1 s2 : string) : Prop := String.ltb s1 s2 = true.

Global Instance string_le_dec : RelDecision string_le.
Proof. intros s1 s2. unfold string_le. apply _. Defined.

(** [array.sort()] of strings.  The order is total, so the sorted array
    is the same whatever algorithm the engine runs. *)
Definition array_sort (l : list string) : list string :=
  merge_sort string_le l.

(** [get continents()], on the elements of the catalogue. *)
Definition continents_of (catalog : list Country) : list string :=
  array_sort
    (filter (λ c, c ≠ "Antarctica")
       (spread_new_Set (continent <$> catalog))).

Definition continents (g : QuizGame) : M (list string) :=
  catalog ← array_get (allCountries g);
  mret (continents_of catalog).

(** ** AudioManager *)

(** An [Audio] element of the page, as far as the manager deals with
    it.  [new Audio(src)] gives a paused element at full volume. *)
Record AudioElement : Type := mkAudioElement {
  audio_src : string;
  audio_volume : QArith_base.Q;
  paused : bool
}.

Definition new_Audio (src : string) : AudioElement :=
  {| audio_src := src; audio_volume := QArith_base.Qmake 1 1;
     paused := true |}.

(** What the platform does with one [play] call: it has no [Audio]
    constructor ([new Audio] throws), it refuses to start playback (the
    promise of [audio.play()] is rejected), or it plays. *)
Inductive Platform : Type := NoAudio | Blocked | Plays.

(** The elements made so far, by handle. *)
Abbreviation AudioElements := (list AudioElement).

(** [audio.pause()] *)
Definition audio_pause (a : nat) (els : AudioElements) : AudioElements :=
  alter (λ e, {| audio_src := audio_src e; audio_volume := audio_volume e;
                 paused := true |}) a els.

(** [audio.play()], allowed by the platform. *)
Definition audio_play (a : nat) (els : AudioElements) : AudioElements :=
  alter (λ e, {| audio_src := audio_src e; audio_volume := audio_volume e;
                 paused := false |}) a els.

(** [audio.volume = volume], which throws outside of [0, 1]. *)
Definition volume_in_range (volume : QArith_base.Q) : bool :=
  QArith_base.Qle_bool (QArith_base.Qmake 0 1) volume
  && QArith_base.Qle_bool volume (QArith_base.Qmake 1 1).

Definition audio_set_volume (a : nat) (volume : QArith_base.Q)
    (els : AudioElements) : AudioElements :=
  alter (λ e, {| audio_src := audio_src e; audio_volume := volume;
                 paused := paused e |}) a els.

(** The keys of [this.sounds]. *)
Inductive SoundType : Type := success | error | complete.

(** [String.prototype.toUpperCase], on ASCII strings. *)
Definition ascii_toUpperCase (c : ascii) : ascii :=
  let n := nat_of_ascii c in
  if (97 <=? n) && (n <=? 122) then ascii_of_nat (n - 32) else c.

Fixpoint toUpperCase (s : string) : string :=
  match s with
  | EmptyString => EmptyString
  | String c s' => String (ascii_toUpperCase c) (toUpperCase s')
  end.

Module AudioManager.

(** The one field that changes; [this.sounds] is the table [sounds]. *)
Record t : Type := mk { currentAudio : option nat }.

(** [constructor()] *)
Definition new : t := {| currentAudio := None |}.

Definition sounds (type : SoundType) : string :=
  match type with
  | success => "/sounds/success_sound.mp3"
  | error => "/sounds/error_sound.mp3"
  | complete => "/sounds/mission_complete_sound.mp3"
  end.

(** [stop()] *)
Definition stop (s : t * AudioElements) : t * AudioElements :=
  match currentAudio s.1 with
  | Some a => ({| currentAudio := None |}, audio_pause a s.2)
  | None => s
  end.

(** [play(src, volume = 0.5)]: whatever is thrown inside [try] is
    swallowed, and what was assigned before it stays. *)
Definition play (src : string) (volume : QArith_base.Q) (p : Platform)
    (s : t * AudioElements) : t * AudioElements :=
  let s1 := stop s in
  match p with
  | NoAudio => s1
  | _ =>
      let audio := length s1.2 in
      let els := s1.2 ++ [new_Audio src] in
      if volume_in_range volume then
        let els := audio_set_volume audio volume els in
        let m := {| currentAudio := Some audio |} in
        match p with
        | Plays => (m, audio_play audio els)
        | _ => (m, els)
        end
      else (s1.1, els)
  end.

(** [playSound(type)] *)
Definition playSound (type : SoundType) (p : Platform)
    (s : t * AudioElements) : t * AudioElements :=
  let src := sounds type in
  if bool_decide (src ≠ "") then play src (QArith_base.Qmake 1 2) p s
  else s.

(** [playCountryName(code)] *)
Definition playCountryName (code : string) (p : Platform)
    (s : t * AudioElements) : t * AudioElements :=
  play ("/audio/" ++ toUpperCase code ++ ".mp3") (QArith_base.Qmake 7 10) p s.

End AudioManager.

(** ** The answer grid of the page *)

Module AnswerGrid.

(** The states in which a flag button is drawn. *)
Inductive Status : Type := idle | correct | wrong | dimmed.

Global Instance Status_eq_dec : EqDecision Status.
Proof. solve_decision. Defined.

(** [getStatus(code)] of [AnswerGrid], with the properties of the
    component it reads: [answered], [correctCode] and [selectedCode]
    (a string or [null]). *)
Definition getStatus (answered : bool) (correctCode : string)
    (selectedCode : option string) (code : string) : Status :=
  if negb answered then idle
  else if bool_decide (code = correctCode) then correct
  else if bool_decide (Some code = selectedCode) then wrong
  else dimmed.

End AnswerGrid.

(** ** The page: QuizApp *)

(** The handlers of the component, as functions of the component's
    state.  A handler reads the state variables as the last event left
    them (React renders again between two events, and [handleAnswer] is
    made anew whenever [answered] changes), a [setX] call is an update
    of the field, and what a handler has set before an exception stays
    set. *)

(** [type Screen = "menu" | "quiz" | "gameover"] *)
Inductive Screen : Type := menu | quiz | gameover.

(** The state variables that the quiz screen draws: [questionKey],
    [selectedCode], [answered], [score], [questionNumber],
    [totalQuestions], [correctCode], [countryName] and [options]. *)
Record Display : Type := mkDisplay {
  questionKey : nat;
  shown_selectedCode : option string;
  shown_answered : bool;
  shown_score : nat;
  shown_questionNumber : nat;
  shown_totalQuestions : nat;
  shown_correctCode : string;
  countryName : string;
  shown_options : list (string * string)
}.

(** The component between two events: the two refs, the state
    variables, and the timeouts that were set and have not fired. *)
Record Page : Type := mkPage {
  gameRef : QuizGame;
  audioRef : AudioManager.t;
  screen : Screen;
  lastContinent : string;
  display : Display;
  timers : nat
}.

(** What the page works on: the world of the engine and the audio
    elements. *)
Record PageWorld : Type := mkPageWorld {
  engine : World;
  audio_elements : list AudioElement
}.

(** The component when it is mounted, on the catalogue at [catalog]. *)
Definition new_Page (catalog : loc) : Page :=
  {| gameRef := new_QuizGame catalog; audioRef := AudioManager.new;
     screen := menu; lastContinent := "all";
     display := {| questionKey := 0; shown_selectedCode := None;
                   shown_answered := false; shown_score := 0;
                   shown_questionNumber := 1; shown_totalQuestions := 10;
                   shown_correctCode := ""; countryName := "";
                   shown_options := [] |};
     timers := 0 |}.

Definition set_gameRef (g : QuizGame) (pg : Page) : Page :=
  {| gameRef := g; audioRef := audioRef pg; screen := screen pg;
     lastContinent := lastContinent pg; display := display pg;
     timers := timers pg |}.

Definition set_audioRef (a : AudioManager.t) (pg : Page) : Page :=
  {| gameRef := gameRef pg; audioRef := a; screen := screen pg;
     lastContinent := lastContinent pg; display := display pg;
     timers := timers pg |}.

Definition setScreen (s : Screen) (pg : Page) : Page :=
  {| gameRef := gameRef pg; audioRef := audioRef pg; screen := s;
     lastContinent := lastContinent pg; display := display pg;
     timers := timers pg |}.

Definition setLastContinent (c : string) (pg : Page) : Page :=
  {| gameRef := gameRef pg; audioRef := audioRef pg; screen := screen pg;
     lastContinent := c; display := display pg; timers := timers pg |}.

Definition set_display (d : Display) (pg : Page) : Page :=
  {| gameRef := gameRef pg; audioRef := audioRef pg; screen := screen pg;
     lastContinent := lastContinent pg; display := d; timers := timers pg |}.

Definition set_timers (n : nat) (pg : Page) : Page :=
  {| gameRef := gameRef pg; audioRef := audioRef pg; screen := screen pg;
     lastContinent := lastContinent pg; display := display pg; timers := n |}.

(** [syncState()]: nothing when the round is over, else every state
    variable of the quiz screen from the game; [q.options.map] reads the
    options array. *)
Definition syncState (w : World) (pg : Page) : Page :=
  match currentQuestion (gameRef pg) with
  | None => pg
  | Some q =>
      set_display
        {| countryName := name (country q);
           shown_options := (λ o, (code o, name o)) <$> arrays w (options q);
           shown_correctCode := correctCode q;
           shown_score := score (gameRef pg);
           shown_questionNumber := questionNumber (gameRef pg);
           shown_totalQuestions := totalQuestions (gameRef pg);
           shown_selectedCode := None;
           shown_answered := false;
           questionKey := questionKey (display pg) + 1 |}
        pg
  end.

(** [startGame(continent)]: an exception of [start] leaves the handler
    after [setLastContinent]. *)
Definition startGame (c : string) (s : Page * PageWorld)
    : Completion unit * (Page * PageWorld) :=
  let pg := setLastContinent c s.1 in
  let r := start (Some c) (gameRef pg) (engine s.2) in
  let w := {| engine := r.2; audio_elements := audio_elements s.2 |} in
  match r.1.1 with
  | Throw e => (Throw e, (set_gameRef r.1.2 pg, w))
  | Normal _ =>
      (Normal tt, (setScreen quiz (syncState r.2 (set_gameRef r.1.2 pg)), w))
  end.

(** The function given to [setTimeout] in [handleAnswer]. *)
Definition advance_timer (p : Platform) (s : Page * PageWorld)
    : Completion unit * (Page * PageWorld) :=
  let r := nextQuestion (gameRef s.1) in
  let pg := set_gameRef r.2 s.1 in
  if r.1 then (Normal tt, (syncState (engine s.2) pg, s.2))
  else
    let a := AudioManager.playSound complete p
               (audioRef pg, audio_elements s.2) in
    (Normal tt,
     (setScreen gameover (set_audioRef a.1 pg),
      {| engine := engine s.2; audio_elements := a.2 |})).

(** [handleAnswer(code)] *)
Definition handleAnswer (c : string) (p : Platform) (s : Page * PageWorld)
    : Completion unit * (Page * PageWorld) :=
  if shown_answered (display s.1) then (Normal tt, s)
  else
    let r := submitAnswer c (gameRef s.1) in
    let pg := set_gameRef r.2 s.1 in
    match r.1 with
    | Throw e => (Throw e, (pg, s.2))
    | Normal None => (Normal tt, (pg, s.2))
    | Normal (Some result) =>
        let d := display pg in
        let pg :=
          set_display
            {| countryName := countryName d;
               shown_options := shown_options d;
               shown_correctCode := shown_correctCode d;
               shown_score := score (gameRef pg);
               shown_questionNumber := shown_questionNumber d;
               shown_totalQuestions := shown_totalQuestions d;
               shown_selectedCode := Some c;
               shown_answered := true;
               questionKey := questionKey d |}
            pg in
        let a := AudioManager.playSound
                   (if correct result then success else error) p
                   (audioRef pg, audio_elements s.2) in
        (Normal tt,
         (set_timers (S (timers pg)) (set_audioRef a.1 pg),
          {| engine := engine s.2; audio_elements := a.2 |}))
    end.

(** [playAudio()] *)
Definition playAudio (p : Platform) (s : Page * PageWorld)
    : Completion unit * (Page * PageWorld) :=
  match currentQuestion (gameRef s.1) with
  | Some q =>
      let a := AudioManager.playCountryName (code (country q)) p
                 (audioRef s.1, audio_elements s.2) in
      (Normal tt,
       (set_audioRef a.1 s.1,
        {| engine := engine s.2; audio_elements := a.2 |}))
  | None => (Normal tt, s)
  end.

(** What can happen to the page: a click on a button of the screen that
    is drawn, or a timeout that fires. *)
Inductive Event : Type :=
  | SelectContinent (c : string)       (* a button of [ContinentSelector] *)
  | ClickOption (c : string) (p : Platform)    (* a flag of [AnswerGrid] *)
  | ClickPlayAudio (p : Platform)      (* the button of [QuestionDisplay] *)
  | ClickReplay                        (* [onReplay] of [GameOver] *)
  | ClickMenu                          (* [onMenu] of [GameOver] *)
  | TimerFires (p : Platform).

(** The handler an event runs, if the screen that is drawn has the
    button ([screen === "menu"], [screen === "gameover"], else the quiz)
    or a timeout is pending. *)
Definition fire (ev : Event) (s : Page * PageWorld)
    : option (Completion unit * (Page * PageWorld)) :=
  match ev, screen s.1 with
  | SelectContinent c, menu => Some (startGame c s)
  | ClickOption c p, quiz => Some (handleAnswer c p s)
  | ClickPlayAudio p, quiz => Some (playAudio p s)
  | ClickReplay, gameover => Some (startGame (lastContinent s.1) s)
  | ClickMenu, gameover => Some (Normal tt, (setScreen menu s.1, s.2))
  | TimerFires p, _ =>
      match timers s.1 with
      | S n => Some (advance_timer p (set_timers n s.1, s.2))
      | 0 => None
      end
  | _, _ => None
  end.

(** The events in order; one that cannot happen in the state it meets
    is passed over.  The completions of the handlers that ran, and the
    state at the end. *)
Fixpoint run_page (evs : list Event) (s : Page * PageWorld)
    : list (Completion unit) * (Page * PageWorld) :=
  match evs with
  | [] => ([], s)
  | ev :: evs' =>
      match fire ev s with
      | Some r => let rest := run_page evs' r.2 in (r.1 :: rest.1, rest.2)
      | None => run_page evs' s
      end
  end.

(** * Vocabulary of the properties *)

(** ** Worlds *)

(** [extends w w']: every array of [w] is still there in [w'], with the
    same elements. *)
Definition extends (w w' : World) : Prop :=
  next w ≤ next w' ∧ ∀ l, l < next w → arrays w' l = arrays w l.

(** [modifies a w w']: at most the array at [a] differs, and nothing was
    allocated. *)
Definition modifies (a : loc) (w w' : World) : Prop :=
  next w' = next w ∧ ∀ l, l ≠ a → arrays w' l = arrays w l.

(** ** Questions and pools *)

(** [question_for P w q]: in the world [w], [q] is a question made from
    the pool elements [P]: its options are its country and the first
    three of a shuffle of the records with another code. *)
Definition question_for (P : list Country) (w : World) (q : Question)
    : Prop :=
  correctCode q = code (country q) ∧
  options q < next w ∧
  ∃ ds, ds ≡ₚ filter (λ c', code c' ≠ code (country q)) P ∧
        arrays w (options q) ≡ₚ country q :: take 3 ds.

(** The elements of the pool that [start] builds from the catalogue. *)
Definition pool_elems (catalog : list Country) (selected : option string)
    : list Country :=
  if wants_filter selected
  then filter (λ c, Some (continent c) = selected) catalog
  else catalog.

(** The game [start] installs once the round [qs] is generated. *)
Definition started (g : QuizGame) (qs : list Question) : QuizGame :=
  {| allCountries := allCountries g; questions := qs;
     currentIndex := 0; score := 0; answered := false |}.

(** ** Sample data *)

(** The catalogue of the scenario of the specification, and a longer
    one. *)
Definition AD : Country := mkCountry "AD" "Andorra" "Europe".
Definition AE : Country := mkCountry "AE" "UAE" "Asia".
Definition AF : Country := mkCountry "AF" "Afghanistan" "Asia".
Definition AG : Country := mkCountry "AG" "Antigua" "North America".
Definition AL : Country := mkCountry "AL" "Albania" "Europe".
Definition AM : Country := mkCountry "AM" "Armenia" "Asia".
Definition AO : Country := mkCountry "AO" "Angola" "Africa".
Definition AR : Country := mkCountry "AR" "Argentina" "South America".
Definition AT : Country := mkCountry "AT" "Austria" "Europe".
Definition AU : Country := mkCountry "AU" "Australia" "Oceania".

Definition catalog5 : list Country := [AD; AE; AF; AG; AL].
Definition catalog10 : list Country :=
  [AD; AE; AF; AG; AL; AM; AO; AR; AT; AU].

(** A pool with five records and four distinct codes: the code AE
    occurs twice. *)
Definition catalog_repeated : list Country :=
  [AD; AE; mkCountry "AE" "Emirates" "Asia"; AF; AG].

(** A world whose only array is the catalogue, at address 0. *)
Definition sample_world (catalog : list Country) (ds : nat → Z) : World :=
  {| arrays := <[0 := catalog]> (λ _, []); next := 1;
     draws := ds; tick := 0 |}.

(** Two oracles: one that mixes, and one whose every draw is the largest
    fraction, under which [shuffle] swaps each element with itself. *)
Definition sample_draws (k : nat) : Z :=
  (Z.of_nat k * 1234567890123457 + 2 ^ 51)%Z.
Definition largest_draws (k : nat) : Z := (2 ^ 53 - 1)%Z.

Definition sample_game : QuizGame := new_QuizGame 0.

(** ** Sequences of calls *)

(** A call that may shuffle: [game.start(selected)] or
    [QuestionGenerator.generate(pool, count)]. *)
Inductive Call : Type :=
  | CallStart (selected : option string)
  | CallGenerate (pool : loc) (count : Z).

Definition run_call (s : QuizGame * World) (c : Call) : QuizGame * World :=
  match c with
  | CallStart selected =>
      let r := start selected s.1 s.2 in (r.1.2, r.2)
  | CallGenerate pool count => (s.1, (generate pool count s.2).2)
  end.

Definition run_calls (cs : list Call) (s : QuizGame * World)
    : QuizGame * World :=
  foldl run_call s cs.

(** ** The options of a question *)

(** The number of distinct codes among the records of a pool. *)
Definition distinct_codes (P : list Country) : nat :=
  length (remove_dups (code <$> P)).

(** The records [q.options] holds in the world [w]. *)
Definition options_of (w : World) (q : Question) : list Country :=
  arrays w (options q).

(** Exactly one option of [q] has the code [q.correctCode]. *)
Definition one_correct_option (w : World) (q : Question) : Prop :=
  length (filter (λ o, code o = correctCode q) (options_of w q)) = 1.

(** The property of a question as the specification words it: 4 options
    with pairwise-distinct codes, exactly one of them correct, and
    [correctCode] the code of the target. *)
Definition four_distinct_options (w : World) (q : Question) : Prop :=
  length (options_of w q) = 4 ∧
  NoDup (code <$> options_of w q) ∧
  one_correct_option w q ∧
  correctCode q = code (country q).

(** ** Outcomes of start *)

(** The call ended with an exception. *)
Definition throws {A} (c : Completion A) : Prop :=
  match c with Throw _ => True | Normal _ => False end.

(** The filtered pool as the specification words it: [null] and "all"
    stand for the whole catalogue, any other filter selects the records
    of that continent. *)
Definition spec_pool (catalog : list Country) (selected : option string)
    : list Country :=
  match selected with
  | None => catalog
  | Some s =>
      if bool_decide (s = "all") then catalog
      else filter (λ c, continent c = s) catalog
  end.

(** The same with the empty string added to the filters that stand for
    the whole catalogue. *)
Definition falsy_or_all_pool (catalog : list Country)
    (selected : option string) : list Country :=
  match selected with
  | None => catalog
  | Some s =>
      if bool_decide (s = "" ∨ s = "all") then catalog
      else filter (λ c, continent c = s) catalog
  end.

(** ** Progress in a round *)

(** [nextQuestion] called [n] times. *)
Definition advance (n : nat) (g : QuizGame) : QuizGame :=
  Nat.iter n (λ g', (nextQuestion g').2) g.

(** The game of the sample: [start("all")] on the catalogue of 5. *)
Definition started_game : QuizGame :=
  (start (Some "all") sample_game (sample_world catalog5 sample_draws)).1.2.

(** ** Choosing the draws *)

(** The world [w] with the oracle [ds] in the place of its own. *)
Definition set_draws (ds : nat → Z) (w : World) : World :=
  {| arrays := arrays w; next := next w; draws := ds; tick := tick w |}.

(** Two worlds that differ at most in draws that are already consumed. *)
Definition same_future (w1 w2 : World) : Prop :=
  (∀ b, arrays w1 b = arrays w2 b) ∧
  next w1 = next w2 ∧
  tick w1 = tick w2 ∧
  ∀ k, tick w1 ≤ k → draws w1 k = draws w2 k.

(** ** Sessions *)

(** What a caller does to a game between two starts. *)
Inductive Move : Type :=
  | Answer (selectedCode : string)    (* [game.submitAnswer(selectedCode)] *)
  | Advance.                          (* [game.nextQuestion()] *)

(** The game after a move; an exception of [submitAnswer] is caught by
    the caller, the game keeps what was assigned before it. *)
Definition make_move (g : QuizGame) (m : Move) : QuizGame :=
  match m with
  | Answer selectedCode => (submitAnswer selectedCode g).2
  | Advance => (nextQuestion g).2
  end.

Definition make_moves (ms : list Move) (g : QuizGame) : QuizGame :=
  foldl make_move g ms.

(** The way the page plays: one answer to each question, each followed
    by [nextQuestion]; the results of the answers and the game at the
    end. *)
Fixpoint play_round (answers : list string) (g : QuizGame)
    : list (Completion (option AnswerResult)) * QuizGame :=
  match answers with
  | [] => ([], g)
  | a :: rest =>
      let r := submitAnswer a g in
      let rs := play_round rest (nextQuestion r.2).2 in
      (r.1 :: rs.1, rs.2)
  end.

(** The result of the answer [a] to the question [q]. *)
Definition answer_result (a : string) (q : Question)
    : Completion (option AnswerResult) :=
  Normal (Some {| correct := bool_decide (a = correctCode q);
                  result_correctCode := correctCode q |}).

(** How many of the answers are the code the question asks for. *)
Definition right_answers (answers : list string) (qs : list Question) : nat :=
  length (filter (λ p, p.1 = correctCode p.2) (zip answers qs)).

(** ** Sequences of audio calls *)

(** What happens to the manager and its elements: the calls of its
    methods, each with what the platform does, and an element that the
    platform pauses when its sound has ended. *)
Inductive AudioCall : Type :=
  | AudioStop
  | AudioPlay (src : string) (volume : QArith_base.Q) (p : Platform)
  | AudioPlaySound (type : SoundType) (p : Platform)
  | AudioPlayCountryName (code : string) (p : Platform)
  | AudioEnded (a : nat).

Definition run_audio_call (s : AudioManager.t * AudioElements)
    (c : AudioCall) : AudioManager.t * AudioElements :=
  match c with
  | AudioStop => AudioManager.stop s
  | AudioPlay src volume p => AudioManager.play src volume p s
  | AudioPlaySound type p => AudioManager.playSound type p s
  | AudioPlayCountryName code p => AudioManager.playCountryName code p s
  | AudioEnded a => (s.1, audio_pause a s.2)
  end.

(** The calls in order, on a new manager. *)
Definition run_audio (cs : list AudioCall) : AudioManager.t * AudioElements :=
  foldl run_audio_call (AudioManager.new, []) cs.

(** Only the current element may be playing. *)
Definition only_current_plays (s : AudioManager.t * AudioElements) : Prop :=
  ∀ a e, s.2 !! a = Some e → paused e = false →
         AudioManager.currentAudio s.1 = Some a.

(** ** The page and its game *)

(** The page as it is mounted, in a world that holds the catalogue. *)
Definition page_init (catalog : loc) (w : World) : Page * PageWorld :=
  (new_Page catalog, {| engine := w; audio_elements := [] |}).

(** The score counts questions that were there and got an answer. *)
Definition score_bound (g : QuizGame) : nat :=
  currentIndex g `min` length (questions g)
  + (if answered g && bool_decide (currentIndex g < length (questions g))
     then 1 else 0).

(** On the quiz screen the state variables show the current question
    [q] of the game, and a timeout is pending exactly while the question
    is answered. *)
Definition quiz_synced (q : Question) (s : Page * PageWorld) : Prop :=
  let g := gameRef s.1 in
  let d := display s.1 in
  currentQuestion g = Some q ∧
  shown_answered d = answered g ∧
  timers s.1 = (if answered g then 1 else 0) ∧
  shown_score d = score g ∧
  shown_questionNumber d = questionNumber g ∧
  shown_totalQuestions d = totalQuestions g ∧
  shown_correctCode d = correctCode q ∧
  countryName d = name (country q) ∧
  shown_options d
  = (λ o, (code o, name o)) <$> arrays (engine s.2) (options q).

(** What holds of the page between two events, for the catalogue
    [records]. *)
Definition page_inv (records : list Country) (s : Page * PageWorld) : Prop :=
  let g := gameRef s.1 in
  allCountries g < next (engine s.2) ∧
  arrays (engine s.2) (allCountries g) = records ∧
  score g ≤ score_bound g ∧
  match screen s.1 with
  | menu => timers s.1 = 0
  | quiz =>
      OPTIONS_COUNT ≤ length (pool_elems records (Some (lastContinent s.1))) ∧
      ∃ q, quiz_synced q s
  | gameover =>
      timers s.1 = 0 ∧
      OPTIONS_COUNT ≤ length (pool_elems records (Some (lastContinent s.1))) ∧
      isGameOver g = true ∧
      shown_score (display s.1) = score g ∧
      shown_totalQuestions (display s.1) = totalQuestions g
  end.

(** How a handler may end: normally, or with the error of [start]. *)
Definition ends_well (c : Completion unit) : Prop :=
  c = Normal tt ∨ ∃ size selected, c = Throw (TooFewCountries size selected).

(** The page on the catalogue of 5, a whole round on it (every answer
    AD), and the start of one after a continent that is too small. *)
Definition sample_page : Page * PageWorld :=
  page_init 0 (sample_world catalog5 sample_draws).

Definition sample_round_events : list Event :=
  SelectContinent "all"
  :: concat (replicate 5 [ClickOption "AD" Plays; TimerFires Plays]).

Definition sample_answer_events : list Event :=
  [SelectContinent "Europe"; SelectContinent "all";
   ClickOption "AF" Blocked; ClickOption "AD" Plays].

(** * Properties *)

(** ** Lists *)

Section list_facts.
Context {A : Type}.
Implicit Types l : list A.

(** Putting [a] in the place of [y] and [y] in front. *)
Lemma insert_head_Permutation l j y a :
  l !! j = Some y → y :: <[j := a]> l ≡ₚ a :: l.
Proof.
  revert j. induction l as [|b l IH]; intros [|j] Hj; simplify_eq/=.
  - apply perm_swap.
  - rewrite (perm_swap b y), (IH _ Hj). apply perm_swap.
Qed.

(** Exchanging two elements of a list permutes it. *)
Lemma exchange_Permutation l i j ai aj :
  l !! i = Some ai → l !! j = Some aj →
  <[j := ai]> (<[i := aj]> l) ≡ₚ l.
Proof.
  revert i j. induction l as [|b l IH]; intros [|i] [|j] Hi Hj;
    simplify_eq/=; auto using insert_head_Permutation.
Qed.

(** [slice(0, n)] for a natural [n] keeps the first [n] elements. *)
Lemma slice0_of_nat (n : nat) l : slice0 (Z.of_nat n) l = take n l.
Proof.
  unfold slice0. destruct (Z.ltb_spec (Z.of_nat n) 0); [lia|].
  destruct (Nat.le_gt_cases n (length l)).
  - f_equal. lia.
  - rewrite Z.min_r by lia. rewrite Nat2Z.id.
    by rewrite !take_ge by lia.
Qed.

Lemma slice0_sublist (z : Z) l : slice0 z l `sublist_of` l.
Proof. apply sublist_take. Qed.

End list_facts.

(** ** The store *)

Lemma extends_refl w : extends w w.
Proof. by split. Qed.

Lemma extends_trans w1 w2 w3 : extends w1 w2 → extends w2 w3 → extends w1 w3.
Proof.
  intros [Hn1 Ha1] [Hn2 Ha2]. split; [lia|].
  intros l Hl. rewrite Ha2 by lia. by apply Ha1.
Qed.

Lemma modifies_trans a w1 w2 w3 :
  modifies a w1 w2 → modifies a w2 w3 → modifies a w1 w3.
Proof.
  intros [Hn1 Ha1] [Hn2 Ha2]. split; [congruence|].
  intros l Hl. rewrite Ha2 by done. by apply Ha1.
Qed.

Lemma mbind_unfold {A B} (m : M A) (f : A → M B) w :
  (m ≫= f) w = f (m w).1 (m w).2.
Proof. unfold mbind, M_bind. by destruct (m w). Qed.

Lemma array_new_spec elems w :
  (array_new elems w).1 = next w ∧
  arrays (array_new elems w).2 (next w) = elems ∧
  next (array_new elems w).2 = S (next w) ∧
  extends w (array_new elems w).2.
Proof.
  unfold array_new, extends; simpl. rewrite fn_lookup_insert.
  repeat split; [lia|]. intros l Hl. apply fn_lookup_insert_ne. lia.
Qed.

(** The index drawn for position [i] of a shuffle is one of [0..i], and
    each of them can be drawn. *)
Lemma random_floor_lt n w : 0 < n → (random_floor n w).1 < n.
Proof.
  intros Hn. unfold random_floor. rewrite mbind_unfold. simpl.
  set (r := (draws w (tick w) mod random_resolution)%Z).
  assert (0 ≤ r < random_resolution)%Z as Hr
    by (apply Z.mod_pos_bound; reflexivity).
  assert (0 ≤ r * Z.of_nat n / random_resolution < Z.of_nat n)%Z; [|lia].
  split.
  - apply Z.div_pos; [|reflexivity]. lia.
  - apply Z.div_lt_upper_bound; [reflexivity|]. nia.
Qed.

Lemma random_floor_onto (n j : nat) :
  j < n → (Z.of_nat n ≤ random_resolution)%Z →
  ∃ d, ∀ w, draws w (tick w) = d → (random_floor n w).1 = j.
Proof.
  intros Hj Hn. unfold random_resolution in *.
  set (R := (2 ^ 53)%Z) in *. assert (0 < R)%Z as HR by reflexivity.
  exists ((Z.of_nat j * R + Z.of_nat n - 1) / Z.of_nat n)%Z.
  intros w Hdraw. unfold random_floor. rewrite mbind_unfold.
  cbn [Math_random mret M_ret fst snd]. rewrite Hdraw.
  unfold random_resolution. fold R.
  set (d := ((Z.of_nat j * R + Z.of_nat n - 1) / Z.of_nat n)%Z).
  assert (Z.of_nat j * R ≤ d * Z.of_nat n ≤ Z.of_nat j * R + Z.of_nat n - 1)%Z
    as [Hlo Hhi].
  { pose proof (Z.mul_div_le (Z.of_nat j * R + Z.of_nat n - 1)
                  (Z.of_nat n) ltac:(lia)) as Hle.
    pose proof (Z.mul_succ_div_gt (Z.of_nat j * R + Z.of_nat n - 1)
                  (Z.of_nat n) ltac:(lia)) as Hgt.
    fold d in Hle, Hgt. lia. }
  assert (0 ≤ d < R)%Z as Hd by nia.
  rewrite (Z.mod_small d R Hd).
  assert (d * Z.of_nat n / R = Z.of_nat j)%Z as ->; [|lia].
  symmetry. apply (Z.div_unique_pos _ _ _ (d * Z.of_nat n - Z.of_nat j * R));
    lia.
Qed.

Lemma random_floor_store n w :
  arrays (random_floor n w).2 = arrays w ∧
  next (random_floor n w).2 = next w.
Proof. done. Qed.

Lemma array_swap_spec a i j w :
  i < length (arrays w a) → j < length (arrays w a) →
  arrays (array_swap a i j w).2 a ≡ₚ arrays w a ∧
  modifies a w (array_swap a i j w).2.
Proof.
  intros Hi Hj. unfold array_swap. rewrite mbind_unfold. simpl.
  destruct (lookup_lt_is_Some_2 _ _ Hi) as [ai Hai].
  destruct (lookup_lt_is_Some_2 _ _ Hj) as [aj Haj].
  rewrite Hai, Haj. unfold array_set, modifies; simpl.
  rewrite fn_lookup_insert. split; [by apply exchange_Permutation|].
  split; [done|]. intros l Hl. by apply fn_lookup_insert_ne.
Qed.

Lemma shuffle_loop_spec a i : ∀ w,
  i < length (arrays w a) ∨ i = 0 →
  arrays (shuffle_loop a i w).2 a ≡ₚ arrays w a ∧
  modifies a w (shuffle_loop a i w).2.
Proof.
  induction i as [|i IH]; intros w Hi.
  - by repeat split.
  - destruct Hi as [Hi|]; [|done].
    cbn [shuffle_loop]. rewrite !mbind_unfold.
    pose proof (random_floor_lt (S i + 1) w ltac:(lia)) as Hj.
    destruct (random_floor_store (S i + 1) w) as [Harr Hnext].
    set (j := (random_floor (S i + 1) w).1) in *.
    set (w1 := (random_floor (S i + 1) w).2) in *.
    destruct (array_swap_spec a (S i) j w1) as [Hperm Hmod];
      [rewrite Harr; lia..|].
    set (w2 := (array_swap a (S i) j w1).2) in *.
    destruct (IH w2) as [Hperm' Hmod'].
    { left. rewrite (Permutation_length Hperm), Harr. lia. }
    split.
    + by rewrite Hperm', Hperm, Harr.
    + eapply modifies_trans; [|exact Hmod'].
      destruct Hmod as [? Hm]. split; [congruence|].
      intros l Hl. rewrite Hm by done. by rewrite Harr.
Qed.

(** [shuffle] returns its argument, whose elements it permutes; no other
    array changes. *)
Lemma shuffle_spec a w :
  (shuffle a w).1 = a ∧
  arrays (shuffle a w).2 a ≡ₚ arrays w a ∧
  modifies a w (shuffle a w).2.
Proof.
  unfold shuffle. rewrite !mbind_unfold. simpl.
  split; [done|]. apply shuffle_loop_spec. lia.
Qed.

Lemma extends_modifies a w w1 w2 :
  extends w w1 → modifies a w1 w2 → next w ≤ a → extends w w2.
Proof.
  intros [Hn Ha] [Hn' Ha'] Hle. split; [lia|].
  intros l Hl. rewrite Ha' by lia. by apply Ha.
Qed.

(** A new array that is shuffled at once: the pattern of all three
    [shuffle] calls of [generate]. *)
Lemma shuffle_new_spec elems w :
  let a := (array_new elems w).1 in
  let w' := (shuffle a (array_new elems w).2).2 in
  a = next w ∧ (shuffle a (array_new elems w).2).1 = a ∧
  arrays w' a ≡ₚ elems ∧ next w' = S (next w) ∧ extends w w'.
Proof.
  intros a w'. subst a w'.
  destruct (array_new_spec elems w) as (Ha & Hel & Hn & Hext).
  destruct (shuffle_spec (array_new elems w).1 (array_new elems w).2)
    as (Hr & Hperm & Hmod).
  rewrite Ha in *. split; [done|]. split; [done|].
  split; [by rewrite Hperm, Hel|].
  split; [destruct Hmod; congruence|].
  eapply extends_modifies; [exact Hext|exact Hmod|lia].
Qed.

(** ** Questions *)

Lemma question_for_extends P w w' q :
  extends w w' → question_for P w q → question_for P w' q.
Proof.
  intros [Hn Ha] (Hc & Ho & ds & Hds & Hopts).
  split; [done|]. split; [lia|]. exists ds. by rewrite Ha.
Qed.


Lemma make_question_spec pool c w :
  let q := (make_question pool c w).1 in
  let w' := (make_question pool c w).2 in
  country q = c ∧ question_for (arrays w pool) w' q ∧ extends w w'.
Proof.
  intros q w'. subst q w'. unfold make_question.
  rewrite mbind_unfold.
  set (F := filter (λ c', code c' ≠ code c) (arrays w pool)).
  change (array_filter _ pool w) with (array_new F w).
  rewrite mbind_unfold.
  destruct (shuffle_new_spec F w) as (Ha & -> & Hperm & Hn & Hext).
  set (filtered := (array_new F w).1) in *.
  set (w2 := (shuffle filtered (array_new F w).2).2) in *.
  rewrite mbind_unfold.
  set (ds := arrays w2 filtered) in *.
  change (array_slice0 filtered _ w2)
    with (array_new (slice0 (Z.of_nat (OPTIONS_COUNT - 1)) ds) w2).
  rewrite slice0_of_nat.
  destruct (array_new_spec (take (OPTIONS_COUNT - 1) ds) w2)
    as (Hd & Hdel & Hdn & Hdext).
  set (distractors := (array_new (take (OPTIONS_COUNT - 1) ds) w2).1) in *.
  set (w3 := (array_new (take (OPTIONS_COUNT - 1) ds) w2).2) in *.
  rewrite mbind_unfold.
  change (array_cons c distractors w3)
    with (array_new (c :: arrays w3 distractors) w3).
  rewrite mbind_unfold.
  destruct (shuffle_new_spec (c :: arrays w3 distractors) w3)
    as (Hf & -> & Hfperm & Hfn & Hfext).
  set (fresh := (array_new (c :: arrays w3 distractors) w3).1) in *.
  set (w5 := (shuffle fresh (array_new (c :: arrays w3 distractors) w3).2).2)
    in *.
  simpl. split; [done|].
  assert (extends w w5) as Hall
    by eauto using extends_trans.
  split; [|done].
  split; [done|]. split; [simpl; lia|].
  exists ds. split; [done|]. simpl.
  rewrite Hfperm. rewrite Hd, Hdel. done.
Qed.

(** The [map] of [generate]: one question per element of [selected], in
    order; the callback leaves every older array as it was. *)
Lemma array_map_loop_spec pool sel n : ∀ k w,
  sel < next w → k + n ≤ length (arrays w sel) →
  let r := array_map_loop (make_question pool) sel k n w in
  extends w r.2 ∧
  country <$> r.1 = take n (drop k (arrays w sel)) ∧
  (pool < next w → Forall (question_for (arrays w pool) r.2) r.1).
Proof.
  induction n as [|n IH]; intros k w Hsel Hk r; subst r.
  - split; [apply extends_refl|]. split; [done|]. by constructor.
  - cbn [array_map_loop]. rewrite mbind_unfold. cbn [array_get fst snd].
    destruct (lookup_lt_is_Some_2 (arrays w sel) k ltac:(lia)) as [x Hx].
    rewrite Hx, !mbind_unfold.
    destruct (make_question_spec pool x w) as (Hc & Hq & Hext).
    set (q := (make_question pool x w).1) in *.
    set (w1 := (make_question pool x w).2) in *.
    assert (arrays w1 sel = arrays w sel) as Hsame by (by apply Hext).
    destruct (IH (S k) w1) as (Hext' & Hmap & Hqs).
    { destruct Hext. lia. }
    { rewrite Hsame. lia. }
    set (r := array_map_loop (make_question pool) sel (S k) n w1) in *.
    cbn [mret M_ret fst snd]. split; [by eapply extends_trans|].
    split.
    + rewrite fmap_cons, Hmap, Hc, Hsame.
      by rewrite (drop_S _ _ _ Hx).
    + intros Hpool. constructor.
      * by eapply question_for_extends.
      * destruct Hext as [Hn Ha]. rewrite <- (Ha pool) by done.
        apply Hqs. lia.
Qed.

(** What [generate] returns: the countries of the questions are the
    first elements of a shuffle of the pool, and each question is made
    from the pool.  Everything allocated before the call is unchanged. *)
Lemma generate_spec pool count w :
  let r := generate pool count w in
  extends w r.2 ∧
  (∃ sh, sh ≡ₚ arrays w pool ∧ country <$> r.1 = slice0 count sh) ∧
  (pool < next w → Forall (question_for (arrays w pool) r.2) r.1).
Proof.
  intros r. subst r. unfold generate.
  rewrite mbind_unfold.
  change (array_spread pool w) with (array_new (arrays w pool) w).
  rewrite mbind_unfold.
  destruct (shuffle_new_spec (arrays w pool) w)
    as (Ha & -> & Hperm & Hn & Hext).
  set (copy := (array_new (arrays w pool) w).1) in *.
  set (w2 := (shuffle copy (array_new (arrays w pool) w).2).2) in *.
  rewrite mbind_unfold.
  set (sh := arrays w2 copy) in *.
  change (array_slice0 copy count w2) with (array_new (slice0 count sh) w2).
  destruct (array_new_spec (slice0 count sh) w2) as (Hs & Hsel & Hsn & Hsext).
  set (selected := (array_new (slice0 count sh) w2).1) in *.
  set (w3 := (array_new (slice0 count sh) w2).2) in *.
  unfold array_map. rewrite mbind_unfold.
  change (array_length selected w3) with (length (arrays w3 selected), w3).
  cbn [fst snd].
  assert (extends w w3) as Hext3 by eauto using extends_trans.
  destruct (array_map_loop_spec pool selected
              (length (arrays w3 selected)) 0 w3)
    as (Hext' & Hmap & Hqs); [lia|lia|].
  set (r := array_map_loop _ _ _ _ _) in *.
  split; [by eapply extends_trans|]. split.
  - exists sh. split; [done|].
    rewrite Hmap, drop_0, firstn_all. by rewrite Hs, Hsel.
  - intros Hpool. destruct Hext3 as [Hn3 Ha3].
    rewrite <- (Ha3 pool) by done. apply Hqs. lia.
Qed.

(** ** start *)

(** [start] step by step: the pool is a new array at [next w]; too small
    a pool throws and leaves the game as it was. *)
Lemma start_unfold selected g w :
  let P := pool_elems (arrays w (allCountries g)) selected in
  let w1 := (array_new P w).2 in
  start selected g w =
    if bool_decide (length P < OPTIONS_COUNT)
    then ((Throw (TooFewCountries (length P) selected), g), w1)
    else ((Normal tt, started g (generate (next w) QUESTIONS_PER_ROUND w1).1),
          (generate (next w) QUESTIONS_PER_ROUND w1).2).
Proof.
  intros P w1. unfold start. rewrite mbind_unfold.
  assert (start_pool g selected w = array_new P w) as ->.
  { unfold start_pool, P, pool_elems. by destruct (wants_filter selected). }
  destruct (array_new_spec P w) as (Ha & Hel & _).
  rewrite mbind_unfold, Ha.
  change (array_length (next w) (array_new P w).2)
    with (length (arrays w1 (next w)), w1).
  cbn [fst snd]. fold w1 in Hel. rewrite Hel.
  case_bool_decide; [done|].
  rewrite mbind_unfold. done.
Qed.

(** ** The length of a round *)

Lemma generate_length pool (count : nat) w :
  length (generate pool (Z.of_nat count) w).1
  = count `min` length (arrays w pool).
Proof.
  destruct (generate_spec pool (Z.of_nat count) w)
    as (_ & (sh & Hperm & Hmap) & _).
  rewrite <- (length_fmap country), Hmap, slice0_of_nat, length_take.
  by rewrite (Permutation_length Hperm).
Qed.

Lemma start_total_questions selected g w :
  let P := pool_elems (arrays w (allCountries g)) selected in
  OPTIONS_COUNT ≤ length P →
  (start selected g w).1.1 = Normal tt ∧
  totalQuestions (start selected g w).1.2 = 10 `min` length P.
Proof.
  intros P HP. rewrite start_unfold. fold P.
  rewrite bool_decide_eq_false_2 by lia. cbn [fst snd].
  split; [done|]. unfold totalQuestions, started; cbn [questions].
  change QUESTIONS_PER_ROUND with (Z.of_nat 10).
  rewrite generate_length.
  by destruct (array_new_spec P w) as (_ & -> & _).
Qed.

Lemma pool_elems_unfiltered catalog selected :
  wants_filter selected = false → pool_elems catalog selected = catalog.
Proof. unfold pool_elems. by intros ->. Qed.

(** C2. [generate(pool, count)] returns exactly [min(count, pool.length)]
    questions, for every pool and every count of questions (a natural
    number), whatever the draws; so [start("all")] on a
    catalogue of 5 countries gives a round of 5 questions, and a start
    without a continent on a catalogue of at least 10 countries gives a
    round of 10. *)
Theorem generate_min_count_pool :
  (∀ pool (count : nat) w,
     length (generate pool (Z.of_nat count) w).1
     = count `min` length (arrays w pool)) ∧
  (∀ g w,
     length (arrays w (allCountries g)) = 5 →
     (start (Some "all") g w).1.1 = Normal tt ∧
     totalQuestions (start (Some "all") g w).1.2 = 5) ∧
  (∀ selected g w,
     wants_filter selected = false →
     10 ≤ length (arrays w (allCountries g)) →
     (start selected g w).1.1 = Normal tt ∧
     totalQuestions (start selected g w).1.2 = 10).
Proof.
  split; [apply generate_length|]. split.
  - intros g w Hlen.
    destruct (start_total_questions (Some "all") g w) as [Hok Htot].
    { rewrite pool_elems_unfiltered, Hlen by done. unfold OPTIONS_COUNT. lia. }
    split; [done|]. by rewrite Htot, pool_elems_unfiltered, Hlen.
  - intros selected g w Hsel Hlen.
    destruct (start_total_questions selected g w) as [Hok Htot].
    { rewrite pool_elems_unfiltered by done. unfold OPTIONS_COUNT. lia. }
    split; [done|]. rewrite Htot, pool_elems_unfiltered by done. lia.
Qed.

(** The three parts on the sample catalogues. *)
Lemma generate_min_count_pool_witness :
  length (generate 0 (Z.of_nat 10) (sample_world catalog5 sample_draws)).1
  = 10 `min` length (arrays (sample_world catalog5 sample_draws) 0) ∧
  (length (arrays (sample_world catalog5 sample_draws)
             (allCountries sample_game)) = 5 ∧
   totalQuestions
     (start (Some "all") sample_game
        (sample_world catalog5 sample_draws)).1.2 = 5) ∧
  (wants_filter None = false ∧
   10 ≤ length (arrays (sample_world catalog10 sample_draws)
                  (allCountries sample_game)) ∧
   totalQuestions
     (start None sample_game (sample_world catalog10 sample_draws)).1.2
   = 10).
Proof.
  destruct generate_min_count_pool as (Hgen & Hfive & Hten).
  split; [exact (Hgen 0 10 (sample_world catalog5 sample_draws))|].
  split.
  - split; [reflexivity|]. apply Hfive. reflexivity.
  - split; [reflexivity|]. split; [simpl; lia|].
    apply Hten; [reflexivity|]. simpl. lia.
Defined.

(** ** Distinct targets *)

Lemma generate_targets_NoDup pool count w :
  NoDup (code <$> arrays w pool) →
  NoDup (code <$> (country <$> (generate pool count w).1)).
Proof.
  intros Hnd.
  destruct (generate_spec pool count w) as (_ & (sh & Hperm & ->) & _).
  eapply sublist_NoDup; [|apply fmap_sublist, slice0_sublist].
  by rewrite Hperm.
Qed.

(** C4. When the codes of the pool are pairwise distinct and the pool
    has at least [count] records, no two questions of the round that
    [generate] returns have the same target code. *)
Theorem generate_distinct_targets pool (count : nat) w :
  NoDup (code <$> arrays w pool) →
  count ≤ length (arrays w pool) →
  ∀ i j q1 q2,
    i ≠ j →
    (generate pool (Z.of_nat count) w).1 !! i = Some q1 →
    (generate pool (Z.of_nat count) w).1 !! j = Some q2 →
    code (country q1) ≠ code (country q2).
Proof.
  intros Hnd _ i j q1 q2 Hij H1 H2 Heq.
  apply Hij.
  eapply (NoDup_lookup _ i j (code (country q1)));
    [exact (generate_targets_NoDup pool (Z.of_nat count) w Hnd)|..].
  - by rewrite !list_lookup_fmap, H1.
  - by rewrite !list_lookup_fmap, H2, Heq.
Qed.

(** Seven questions from the catalogue of 10. *)
Lemma generate_distinct_targets_witness :
  NoDup (code <$> arrays (sample_world catalog10 sample_draws) 0) ∧
  7 ≤ length (arrays (sample_world catalog10 sample_draws) 0) ∧
  ∀ i j q1 q2,
    i ≠ j →
    (generate 0 (Z.of_nat 7) (sample_world catalog10 sample_draws)).1 !! i
      = Some q1 →
    (generate 0 (Z.of_nat 7) (sample_world catalog10 sample_draws)).1 !! j
      = Some q2 →
    code (country q1) ≠ code (country q2).
Proof.
  assert (NoDup (code <$> arrays (sample_world catalog10 sample_draws) 0))
    as Hnd by compute_done.
  assert (7 ≤ length (arrays (sample_world catalog10 sample_draws) 0))
    as Hlen by (simpl; lia).
  split; [exact Hnd|]. split; [exact Hlen|].
  exact (generate_distinct_targets 0 7
           (sample_world catalog10 sample_draws) Hnd Hlen).
Defined.

(** ** The catalogue and the pool are read only *)

Lemma generate_extends pool count w : extends w (generate pool count w).2.
Proof. apply generate_spec. Qed.

Lemma start_extends selected g w : extends w (start selected g w).2.
Proof.
  rewrite start_unfold.
  set (P := pool_elems _ _).
  destruct (array_new_spec P w) as (_ & _ & Hn & Hext).
  case_bool_decide; cbn [snd]; [done|].
  eapply extends_trans; [exact Hext|apply generate_extends].
Qed.

Lemma start_allCountries selected g w :
  allCountries (start selected g w).1.2 = allCountries g.
Proof. rewrite start_unfold. by case_bool_decide. Qed.

Lemma run_call_extends s c :
  extends s.2 (run_call s c).2 ∧
  allCountries (run_call s c).1 = allCountries s.1.
Proof.
  destruct c as [selected|pool count]; cbn [run_call fst snd].
  - split; [apply start_extends|apply start_allCountries].
  - split; [apply generate_extends|done].
Qed.

Lemma run_calls_extends cs : ∀ s,
  extends s.2 (run_calls cs s).2 ∧
  allCountries (run_calls cs s).1 = allCountries s.1.
Proof.
  induction cs as [|c cs IH]; intros s.
  - split; [apply extends_refl|done].
  - change (run_calls (c :: cs) s) with (run_calls cs (run_call s c)).
    destruct (run_call_extends s c) as [He Ha].
    destruct (IH (run_call s c)) as [He' Ha'].
    split; [by eapply extends_trans|congruence].
Qed.

(** C10. Neither [generate] nor [start] changes an array that existed
    before the call, whatever the pool and the draws: [shuffle] is only
    applied to arrays allocated by the call itself.  So after any
    sequence of [start] and [generate] calls every array of the initial
    world, the catalogue and a caller's pool among them, has the
    elements it had, and the game still refers to the same catalogue. *)
Theorem generate_start_leave_arrays_unchanged :
  ∀ (a : loc) (w : World), a < next w →
    (∀ pool count, arrays (generate pool count w).2 a = arrays w a) ∧
    (∀ selected g, arrays (start selected g w).2 a = arrays w a) ∧
    (∀ cs g, arrays (run_calls cs (g, w)).2 a = arrays w a ∧
             allCountries (run_calls cs (g, w)).1 = allCountries g).
Proof.
  intros a w Ha. split; [|split].
  - intros pool count. by apply generate_extends.
  - intros selected g. by apply start_extends.
  - intros cs g. destruct (run_calls_extends cs (g, w)) as [He Hc].
    split; [by apply He|done].
Qed.

(** The catalogue of 5 after a [generate], a [start], and three calls
    in a row. *)
Lemma generate_start_leave_arrays_unchanged_witness :
  0 < next (sample_world catalog5 sample_draws) ∧
  arrays (generate 0 10 (sample_world catalog5 sample_draws)).2 0 = catalog5 ∧
  arrays (start None sample_game (sample_world catalog5 sample_draws)).2 0
  = catalog5 ∧
  arrays (run_calls [CallStart None; CallGenerate 0 3; CallStart (Some "Asia")]
            (sample_game, sample_world catalog5 sample_draws)).2 0
  = catalog5.
Proof.
  assert (0 < next (sample_world catalog5 sample_draws)) as H0
    by (simpl; lia).
  destruct (generate_start_leave_arrays_unchanged 0
              (sample_world catalog5 sample_draws) H0) as (Hg & Hs & Hc).
  split; [exact H0|]. split; [apply Hg|]. split; [apply Hs|].
  apply Hc.
Defined.

(** ** The options of a question *)

Section options_facts.
Context {A : Type} `{EqDecision A}.
Implicit Types l : list A.

Lemma NoDup_all_equal_length l k :
  NoDup l → (∀ x, x ∈ l → x = k) → length l ≤ 1.
Proof.
  intros Hnd Hall. destruct l as [|a [|b l]]; simpl; [lia..|].
  exfalso. apply NoDup_cons in Hnd as [Hnotin _]. apply Hnotin.
  assert (a = k) as -> by (apply Hall; constructor).
  assert (b = k) as -> by (apply Hall; do 2 constructor).
  constructor.
Qed.

(** Leaving out one value of a duplicate-free list shortens it by at
    most one. *)
Lemma NoDup_filter_ne_length l k :
  NoDup l → length l ≤ S (length (filter (λ x, x ≠ k) l)).
Proof.
  intros Hnd.
  rewrite <- (Permutation_length (filter_app_complement (λ x, x ≠ k) l)).
  rewrite length_app.
  assert (length (filter (λ x, ¬ x ≠ k) l) ≤ 1); [|lia].
  apply (NoDup_all_equal_length _ k); [by apply NoDup_filter|].
  intros x [Hx _]%list_elem_of_filter.
  by destruct (decide (x = k)).
Qed.

End options_facts.

(** A pool with [n] distinct codes has at least [n - 1] records whose
    code differs from a given one. *)
Lemma filter_other_codes_length (P : list Country) (k : string) :
  distinct_codes P ≤ S (length (filter (λ c', code c' ≠ k) P)).
Proof.
  unfold distinct_codes.
  set (cs := remove_dups (code <$> P)).
  assert (NoDup cs) as Hnd by apply NoDup_remove_dups.
  etrans; [apply (NoDup_filter_ne_length cs k Hnd)|].
  apply le_n_S.
  rewrite <- (length_fmap code (filter _ P)).
  apply submseteq_length, NoDup_submseteq; [by apply NoDup_filter|].
  intros x [Hx Hin]%list_elem_of_filter.
  apply elem_of_remove_dups, list_elem_of_fmap in Hin as (c & -> & Hc).
  apply list_elem_of_fmap_2, list_elem_of_filter. done.
Qed.

Lemma filter_none {A} (P : A → Prop) `{∀ x, Decision (P x)} (l : list A) :
  (∀ x, x ∈ l → ¬ P x) → filter P l = [].
Proof.
  induction l as [|a l IH]; intros Hall; [done|].
  rewrite filter_cons_False by (apply Hall; constructor).
  apply IH. intros x Hx. apply Hall. by constructor.
Qed.

(** What [question_for] says about the options. *)
Lemma question_for_options P w q :
  question_for P w q →
  length (options_of w q)
  = S (3 `min` length (filter (λ c', code c' ≠ code (country q)) P)) ∧
  one_correct_option w q ∧
  correctCode q = code (country q) ∧
  (NoDup (code <$> P) → NoDup (code <$> options_of w q)).
Proof.
  intros (Hc & Ho & ds & Hds & Hopts). unfold one_correct_option, options_of.
  assert (∀ x, x ∈ take 3 ds → code x ≠ code (country q)) as Hother.
  { intros x Hx.
    pose proof (elem_of_sublist _ _ _ Hx (sublist_take ds 3)) as Hx'.
    rewrite Hds in Hx'. by apply list_elem_of_filter in Hx' as [? _]. }
  split; [|split; [|split; [done|]]].
  - by rewrite (Permutation_length Hopts), <- (Permutation_length Hds),
      length_cons, length_take.
  - rewrite Hopts, filter_cons_True by done.
    rewrite filter_none; [done|]. intros x Hx. rewrite Hc. by apply Hother.
  - intros Hnd. rewrite Hopts, fmap_cons. apply NoDup_cons. split.
    + intros (x & Hcode & Hx)%list_elem_of_fmap. by apply (Hother x).
    + eapply sublist_NoDup; [|apply fmap_sublist, sublist_take].
      rewrite Hds.
      eapply sublist_NoDup; [exact Hnd|apply fmap_sublist, sublist_filter].
Qed.

(** C3, amended.  For a pool (an array of the world) with at least 4
    distinct codes, every
    question that [generate] returns has exactly 4 options, exactly one
    of them has the code [correctCode], and [correctCode] is the code of
    the target; when the codes of the pool are pairwise distinct, so are
    the codes of the options. *)
Theorem generate_four_options pool count w :
  pool < next w →
  4 ≤ distinct_codes (arrays w pool) →
  Forall (λ q,
      length (options_of (generate pool count w).2 q) = 4 ∧
      one_correct_option (generate pool count w).2 q ∧
      correctCode q = code (country q) ∧
      (NoDup (code <$> arrays w pool) →
       NoDup (code <$> options_of (generate pool count w).2 q)))
    (generate pool count w).1.
Proof.
  intros Hpool Hcodes.
  destruct (generate_spec pool count w) as (_ & _ & Hqs).
  eapply Forall_impl; [exact (Hqs Hpool)|]. intros q Hq. cbn beta.
  destruct (question_for_options _ _ _ Hq) as (Hlen & Hone & Hc & Hnd).
  split; [|done]. rewrite Hlen.
  pose proof (filter_other_codes_length (arrays w pool) (code (country q))).
  lia.
Qed.

(** A round from [catalog_repeated], whose codes are not all distinct. *)
Lemma generate_four_options_witness :
  0 < next (sample_world catalog_repeated sample_draws) ∧
  4 ≤ distinct_codes (arrays (sample_world catalog_repeated sample_draws) 0) ∧
  Forall (λ q,
      length (options_of
                (generate 0 10 (sample_world catalog_repeated sample_draws)).2
                q) = 4 ∧
      one_correct_option
        (generate 0 10 (sample_world catalog_repeated sample_draws)).2 q ∧
      correctCode q = code (country q) ∧
      (NoDup (code <$> arrays (sample_world catalog_repeated sample_draws) 0) →
       NoDup (code <$> options_of
                (generate 0 10 (sample_world catalog_repeated sample_draws)).2
                q)))
    (generate 0 10 (sample_world catalog_repeated sample_draws)).1.
Proof.
  assert (0 < next (sample_world catalog_repeated sample_draws)) as H0
    by (simpl; lia).
  assert (4 ≤ distinct_codes
                (arrays (sample_world catalog_repeated sample_draws) 0)) as H4
    by compute_done.
  split; [exact H0|]. split; [exact H4|].
  exact (generate_four_options 0 10
           (sample_world catalog_repeated sample_draws) H0 H4).
Defined.

(** C3 as stated fails when two records of the pool share a code: under
    the oracle that leaves every array in its order, the first question
    made from [catalog_repeated] has the options AD, AE, AE, AF. *)
Lemma generate_repeated_code_options :
  0 < next (sample_world catalog_repeated largest_draws) ∧
  4 ≤ distinct_codes (arrays (sample_world catalog_repeated largest_draws) 0) ∧
  ¬ Forall
      (four_distinct_options
         (generate 0 10 (sample_world catalog_repeated largest_draws)).2)
      (generate 0 10 (sample_world catalog_repeated largest_draws)).1.
Proof.
  split; [simpl; lia|]. split; [compute_done|].
  intros Hall.
  apply Forall_lookup_1 with (i := 0)
    (x := new_Question AD 5) in Hall; [|by vm_compute].
  destruct Hall as (_ & Hnd & _). revert Hnd.
  apply (bool_decide_unpack (¬ _)). by vm_compute.
Qed.

(** ** When start throws *)

Lemma filter_continent_Some (catalog : list Country) (s : string) :
  filter (λ c, Some (continent c) = Some s) catalog
  = filter (λ c, continent c = s) catalog.
Proof. apply list_filter_iff. intros c. split; congruence. Qed.

(** The pool of the code is the pool in words, once the empty string is
    counted among the unfiltered cases. *)
Lemma pool_elems_falsy_or_all catalog selected :
  pool_elems catalog selected = falsy_or_all_pool catalog selected.
Proof.
  unfold pool_elems, falsy_or_all_pool, wants_filter, truthy.
  destruct selected as [s|]; [|done].
  rewrite filter_continent_Some.
  destruct (decide (s = "")) as [->|Hempty]; [done|].
  destruct (decide (s = "all")) as [->|Hall]; [done|].
  rewrite (bool_decide_eq_false_2 (s = "")) by done.
  rewrite (bool_decide_eq_false_2 (Some s = Some "all")) by congruence.
  rewrite (bool_decide_eq_false_2 (s = "" ∨ s = "all")) by tauto.
  done.
Qed.

(** C5, amended.  [start] throws exactly when the filtered pool has
    fewer than 4 records, where the filters [null], the empty string and
    "all" stand for the whole catalogue and any other filter selects
    the records of that continent.  When it does not throw, the game
    has [currentIndex = 0], [score = 0], [answered = false], and its
    questions are what [generate] returns for the pool, a new array
    [pool] that holds these records in the world [w1]. *)
Theorem start_throws_iff_small_pool selected g w :
  let P := falsy_or_all_pool (arrays w (allCountries g)) selected in
  let pool := (array_new P w).1 in
  let w1 := (array_new P w).2 in
  let r := start selected g w in
  (throws r.1.1 ↔ length P < 4) ∧
  arrays w1 pool = P ∧ extends w w1 ∧
  (if bool_decide (length P < 4)
   then r.1 = (Throw (TooFewCountries (length P) selected), g)
   else
     r = ((Normal tt,
           {| allCountries := allCountries g;
              questions := (generate pool QUESTIONS_PER_ROUND w1).1;
              currentIndex := 0; score := 0; answered := false |}),
          (generate pool QUESTIONS_PER_ROUND w1).2)).
Proof.
  intros P pool w1 r. subst P pool w1 r. rewrite start_unfold.
  rewrite <- pool_elems_falsy_or_all.
  set (P := pool_elems _ _). unfold OPTIONS_COUNT.
  destruct (array_new_spec P w) as (-> & Hel & Hn & Hext).
  split; [|split; [done|split; [done|]]].
  - case_bool_decide as Hlen; cbn [fst snd throws]; tauto.
  - by case_bool_decide.
Qed.

(** C5 as stated fails for the empty string: [start("")] takes the whole
    catalogue and succeeds, although no record has the continent "". *)
Lemma start_empty_filter_succeeds :
  ¬ (throws (start (Some "") sample_game
               (sample_world catalog5 sample_draws)).1.1
     ↔ length (spec_pool
                 (arrays (sample_world catalog5 sample_draws)
                    (allCountries sample_game)) (Some "")) < 4).
Proof.
  intros [_ Hthrow].
  assert (length (spec_pool
                    (arrays (sample_world catalog5 sample_draws)
                       (allCountries sample_game)) (Some "")) < 4) as Hlen
    by (vm_compute; lia).
  specialize (Hthrow Hlen). by vm_compute in Hthrow.
Qed.

(** ** Answering and advancing *)

(** A first answer on a question that is there. *)
Lemma submitAnswer_in_round selectedCode g q :
  answered g = false →
  questions g !! currentIndex g = Some q →
  submitAnswer selectedCode g
  = (Normal (Some {| correct := bool_decide (selectedCode = correctCode q);
                     result_correctCode := correctCode q |}),
     {| allCountries := allCountries g; questions := questions g;
        currentIndex := currentIndex g;
        score := if bool_decide (selectedCode = correctCode q)
                 then score g + 1 else score g;
        answered := true |}).
Proof.
  intros Hans Hq. unfold submitAnswer. rewrite Hans. cbn [questions currentIndex].
  rewrite Hq. unfold isCorrect. by case_bool_decide.
Qed.

(** A second answer is refused and changes nothing. *)
Lemma submitAnswer_answered selectedCode g :
  answered g = true → submitAnswer selectedCode g = (Normal None, g).
Proof. intros Hans. unfold submitAnswer. by rewrite Hans. Qed.

(** A first answer after the last question throws. *)
Lemma submitAnswer_round_over selectedCode g :
  answered g = false →
  length (questions g) ≤ currentIndex g →
  (submitAnswer selectedCode g).1 = Throw TypeError ∧
  answered (submitAnswer selectedCode g).2 = true.
Proof.
  intros Hans Hover. unfold submitAnswer. rewrite Hans.
  cbn [questions currentIndex]. by rewrite lookup_ge_None_2.
Qed.

(** C6. In a round, with a question left and not yet answered, the
    first of two [submitAnswer] calls in a row returns a result record
    and the second returns [null]; the score grows by at most 1 over the
    two calls. *)
Theorem submitAnswer_twice first second g :
  answered g = false →
  currentIndex g < length (questions g) →
  (∃ result, (submitAnswer first g).1 = Normal (Some result)) ∧
  (submitAnswer second (submitAnswer first g).2).1 = Normal None ∧
  score g ≤ score (submitAnswer second (submitAnswer first g).2).2 ∧
  score (submitAnswer second (submitAnswer first g).2).2 ≤ score g + 1.
Proof.
  intros Hans Hlt.
  destruct (lookup_lt_is_Some_2 _ _ Hlt) as [q Hq].
  rewrite (submitAnswer_in_round first g q Hans Hq). cbn [fst snd].
  rewrite submitAnswer_answered by done. cbn [fst snd score].
  split; [by eexists|]. split; [done|]. case_bool_decide; lia.
Qed.

(** Two answers on the first question of the sample game. *)
Lemma submitAnswer_twice_witness :
  answered started_game = false ∧
  currentIndex started_game < length (questions started_game) ∧
  (∃ result, (submitAnswer "AD" started_game).1 = Normal (Some result)) ∧
  (submitAnswer "AE" (submitAnswer "AD" started_game).2).1 = Normal None ∧
  score started_game
    ≤ score (submitAnswer "AE" (submitAnswer "AD" started_game).2).2 ∧
  score (submitAnswer "AE" (submitAnswer "AD" started_game).2).2
    ≤ score started_game + 1.
Proof.
  assert (answered started_game = false) as Hans by reflexivity.
  assert (currentIndex started_game < length (questions started_game))
    as Hlt by (vm_compute; lia).
  split; [exact Hans|]. split; [exact Hlt|].
  exact (submitAnswer_twice "AD" "AE" started_game Hans Hlt).
Defined.

Lemma start_score selected g w :
  match (start selected g w).1.1 with
  | Normal _ => score (start selected g w).1.2 = 0
  | Throw _ => score (start selected g w).1.2 = score g
  end.
Proof. rewrite start_unfold. by case_bool_decide. Qed.

(** C7, amended.  In a round, on a question that is there and not yet
    answered, [submitAnswer(selectedCode)] sets [answered] and returns
    [{correct, correctCode}]: [correct] is true exactly when
    [selectedCode] is the [correctCode] of the current question, and
    [correctCode] is that code; the score grows by 1 when the answer is
    correct and is unchanged otherwise.  [nextQuestion] never changes
    the score, and [start] resets it to 0 when it succeeds and leaves
    it when it throws; the queries change nothing, being functions of
    the game. *)
Theorem submitAnswer_scores selectedCode g q :
  answered g = false →
  questions g !! currentIndex g = Some q →
  (∃ result,
     (submitAnswer selectedCode g).1 = Normal (Some result) ∧
     (correct result = true ↔ selectedCode = correctCode q) ∧
     result_correctCode result = correctCode q) ∧
  answered (submitAnswer selectedCode g).2 = true ∧
  score (submitAnswer selectedCode g).2
  = (if bool_decide (selectedCode = correctCode q)
     then score g + 1 else score g) ∧
  (∀ g', score (nextQuestion g').2 = score g') ∧
  (∀ selected g' w,
     match (start selected g' w).1.1 with
     | Normal _ => score (start selected g' w).1.2 = 0
     | Throw _ => score (start selected g' w).1.2 = score g'
     end).
Proof.
  intros Hans Hq. rewrite (submitAnswer_in_round selectedCode g q Hans Hq).
  cbn [fst snd answered score]. split; [|split; [done|split; [done|]]].
  - eexists. split; [done|]. cbn [correct result_correctCode].
    split; [|done]. apply bool_decide_eq_true.
  - split; [done|]. apply start_score.
Qed.

(** The first question of the sample game asks for AD: a right and a
    wrong answer. *)
Lemma submitAnswer_scores_witness :
  answered started_game = false ∧
  questions started_game !! currentIndex started_game
  = Some (new_Question AD 6) ∧
  score (submitAnswer "AD" started_game).2 = score started_game + 1 ∧
  score (submitAnswer "AE" started_game).2 = score started_game.
Proof.
  assert (answered started_game = false) as Hans by reflexivity.
  assert (questions started_game !! currentIndex started_game
          = Some (new_Question AD 6)) as Hq by (vm_compute; reflexivity).
  split; [exact Hans|]. split; [exact Hq|]. split.
  - exact (proj1 (proj2 (proj2
             (submitAnswer_scores "AD" started_game _ Hans Hq)))).
  - exact (proj1 (proj2 (proj2
             (submitAnswer_scores "AE" started_game _ Hans Hq)))).
Defined.

(** C7 as stated fails for [start]: after one correct answer the score
    is 1, and starting again changes it to 0. *)
Lemma start_changes_score :
  score (submitAnswer "AD" started_game).2 = 1 ∧
  score (start None (submitAnswer "AD" started_game).2
           (sample_world catalog5 sample_draws)).1.2
  ≠ score (submitAnswer "AD" started_game).2.
Proof. split; [by vm_compute|]. by vm_compute. Qed.

(** ** The end of a round *)

Lemma advance_fields n g :
  currentIndex (advance n g) = currentIndex g + n ∧
  questions (advance n g) = questions g.
Proof.
  induction n as [|n [IHi IHq]]; [by rewrite Nat.add_0_r|].
  change (advance (S n) g) with (nextQuestion (advance n g)).2.
  cbn [nextQuestion snd currentIndex questions].
  rewrite IHi, IHq. split; [lia|done].
Qed.

(** C8. [nextQuestion] adds exactly 1 to [currentIndex], clears
    [answered], and returns true exactly when the new [currentIndex] is
    below [questions.length]; so after a start that succeeds and
    [totalQuestions] calls of [nextQuestion], [currentQuestion] is
    [null]. *)
Theorem nextQuestion_advances :
  (∀ g,
     currentIndex (nextQuestion g).2 = currentIndex g + 1 ∧
     answered (nextQuestion g).2 = false ∧
     ((nextQuestion g).1 = true
      ↔ currentIndex (nextQuestion g).2 < length (questions (nextQuestion g).2))) ∧
  (∀ selected g w,
     (start selected g w).1.1 = Normal tt →
     currentQuestion
       (advance (totalQuestions (start selected g w).1.2)
          (start selected g w).1.2) = None).
Proof.
  split.
  - intros g. cbn [nextQuestion fst snd currentIndex answered questions].
    split; [done|]. split; [done|]. unfold isGameOver.
    cbn [currentIndex questions]. rewrite negb_true_iff, bool_decide_eq_false.
    lia.
  - intros selected g w Hok.
    pose proof (start_unfold selected g w) as Hstart. cbn zeta in Hstart.
    rewrite Hstart in Hok |- *. clear Hstart.
    case_bool_decide; [done|]. cbn [fst snd].
    set (g' := started g _). unfold currentQuestion, totalQuestions.
    destruct (advance_fields (length (questions g')) g') as [-> ->].
    rewrite bool_decide_eq_true_2; [done|]. lia.
Qed.

(** The sample game after its five questions. *)
Lemma nextQuestion_advances_witness :
  (start (Some "all") sample_game
     (sample_world catalog5 sample_draws)).1.1 = Normal tt ∧
  currentQuestion (advance (totalQuestions started_game) started_game)
  = None.
Proof.
  assert ((start (Some "all") sample_game
             (sample_world catalog5 sample_draws)).1.1 = Normal tt) as Hok
    by (vm_compute; reflexivity).
  split; [exact Hok|].
  exact (proj2 nextQuestion_advances (Some "all") sample_game
           (sample_world catalog5 sample_draws) Hok).
Defined.

(** C1, where the code departs from it.  After [start("all")] on the
    catalogue of 5 and five calls of [nextQuestion] the round is over
    ([currentQuestion] is [null], [answered] is false); [submitAnswer]
    then throws a [TypeError] instead of returning a value. *)
Theorem submitAnswer_after_round_throws :
  (start (Some "all") sample_game
     (sample_world catalog5 sample_draws)).1.1 = Normal tt ∧
  currentQuestion (advance 5 started_game) = None ∧
  answered (advance 5 started_game) = false ∧
  length (questions (advance 5 started_game))
    ≤ currentIndex (advance 5 started_game) ∧
  (submitAnswer "AD" (advance 5 started_game)).1 = Throw TypeError.
Proof. repeat split; by vm_compute. Qed.

(** ** continents *)

Section string_order.

Lemma ascii_compare_refl (a : ascii) : Ascii.compare a a = Eq.
Proof. apply N.compare_refl. Qed.

Lemma ascii_compare_lt_trans (a b c : ascii) :
  Ascii.compare a b = Lt → Ascii.compare b c = Lt → Ascii.compare a c = Lt.
Proof. unfold Ascii.compare. rewrite !N.compare_lt_iff. lia. Qed.

Lemma string_compare_lt_trans (s1 : string) : ∀ s2 s3,
  String.compare s1 s2 = Lt → String.compare s2 s3 = Lt →
  String.compare s1 s3 = Lt.
Proof.
  induction s1 as [|a s1 IH]; intros [|b s2] [|c s3]; simpl; try done.
  destruct (Ascii.compare a b) eqn:Hab; [|clear IH|done];
    destruct (Ascii.compare b c) eqn:Hbc; try done.
  - apply Ascii.compare_eq_iff in Hab as ->.
    apply Ascii.compare_eq_iff in Hbc as ->.
    rewrite ascii_compare_refl. apply IH.
  - apply Ascii.compare_eq_iff in Hab as ->. by rewrite Hbc.
  - apply Ascii.compare_eq_iff in Hbc as <-. by rewrite Hab.
  - by rewrite (ascii_compare_lt_trans a b c).
Qed.

Lemma string_compare_refl (s : string) : String.compare s s = Eq.
Proof.
  induction s as [|a s IH]; [done|]. simpl. by rewrite ascii_compare_refl.
Qed.

Lemma string_le_lt_eq s1 s2 : string_le s1 s2 ↔ string_lt s1 s2 ∨ s1 = s2.
Proof.
  unfold string_le, string_lt, String.leb, String.ltb.
  destruct (String.compare s1 s2) eqn:Hc.
  - apply String.compare_eq_iff in Hc. tauto.
  - tauto.
  - split; [done|]. intros [Hlt | Heq]; [done|].
    rewrite Heq, string_compare_refl in Hc. done.
Qed.

Lemma string_lt_irrefl s : ¬ string_lt s s.
Proof. unfold string_lt, String.ltb. by rewrite string_compare_refl. Qed.

Global Instance string_lt_trans : Transitive string_lt.
Proof.
  intros s1 s2 s3. unfold string_lt, String.ltb.
  destruct (String.compare s1 s2) eqn:H12; try done.
  destruct (String.compare s2 s3) eqn:H23; try done.
  by rewrite (string_compare_lt_trans s1 s2 s3).
Qed.

Global Instance string_le_trans : Transitive string_le.
Proof.
  intros s1 s2 s3. rewrite !string_le_lt_eq.
  intros [H12 | ->] [H23 | ->]; eauto. left. by trans s2.
Qed.

Global Instance string_le_total : Total string_le.
Proof. intros s1 s2. apply String.leb_total. Qed.

End string_order.

Lemma set_insert_all_spec (l : list string) : ∀ seen,
  NoDup seen →
  NoDup (set_insert_all seen l) ∧
  ∀ x, x ∈ set_insert_all seen l ↔ x ∈ seen ∨ x ∈ l.
Proof.
  induction l as [|a l IH]; intros seen Hnd; cbn [set_insert_all].
  - split; [done|]. intros x. rewrite elem_of_nil. tauto.
  - case_bool_decide as Ha.
    + destruct (IH seen Hnd) as [Hnd' Hin]. split; [done|].
      intros x. rewrite Hin, elem_of_cons.
      split; [tauto|]. intros [?|[-> | ?]]; tauto.
    + destruct (IH (seen ++ [a])) as [Hnd' Hin].
      { apply NoDup_app. split; [done|]. split; [|apply NoDup_singleton].
        intros x Hx ->%list_elem_of_singleton. done. }
      split; [done|]. intros x.
      rewrite Hin, elem_of_app, list_elem_of_singleton, elem_of_cons. tauto.
Qed.

(** [[...new Set(l)]] holds the elements of [l], each once. *)
Lemma spread_new_Set_spec (l : list string) :
  NoDup (spread_new_Set l) ∧ ∀ x, x ∈ spread_new_Set l ↔ x ∈ l.
Proof.
  destruct (set_insert_all_spec l [] (NoDup_nil_2)) as [Hnd Hin].
  split; [done|]. intros x. unfold spread_new_Set. rewrite Hin, elem_of_nil.
  tauto.
Qed.

(** A sorted list without duplicates is strictly ascending. *)
Lemma StronglySorted_le_NoDup_lt (l : list string) :
  StronglySorted string_le l → NoDup l → StronglySorted string_lt l.
Proof.
  induction 1 as [|x l Hs IH Hall]; intros Hnd; [constructor|].
  apply NoDup_cons in Hnd as [Hx Hnd]. constructor; [by apply IH|].
  rewrite Forall_forall in Hall |- *. intros y Hy.
  destruct (proj1 (string_le_lt_eq x y) (Hall y Hy)) as [Hlt | ->]; done.
Qed.

(** What [sort()] returns: the same strings, in ascending order. *)
Lemma array_sort_spec (l : list string) :
  array_sort l ≡ₚ l ∧ StronglySorted string_le (array_sort l).
Proof.
  split; [apply merge_sort_Permutation|].
  apply StronglySorted_merge_sort; apply _.
Qed.

(** C9. [continents] returns the continent labels that occur in the
    catalogue, "Antarctica" left out, each of them once, in strictly
    ascending order of [sort()]; it changes nothing in the world. *)
Theorem continents_sorted_distinct g w :
  (∀ label,
     label ∈ (continents g w).1
     ↔ label ≠ "Antarctica" ∧
       ∃ c, c ∈ arrays w (allCountries g) ∧ continent c = label) ∧
  NoDup (continents g w).1 ∧
  StronglySorted string_lt (continents g w).1 ∧
  (continents g w).2 = w.
Proof.
  unfold continents. rewrite mbind_unfold. cbn [array_get mret M_ret fst snd].
  set (catalog := arrays w (allCountries g)). unfold continents_of.
  destruct (spread_new_Set_spec (continent <$> catalog)) as [Hnd Hin].
  set (labels := filter _ (spread_new_Set _)) in *.
  destruct (array_sort_spec labels) as [Hperm Hsorted].
  assert (NoDup (array_sort labels)) as Hnd'.
  { rewrite Hperm. by apply NoDup_filter. }
  split; [|split; [done|split; [|done]]].
  - intros label. rewrite Hperm. unfold labels.
    rewrite list_elem_of_filter, Hin, list_elem_of_fmap.
    split; intros [Hne (c & Hc1 & Hc2)]; (split; [done|]); exists c; done.
  - by apply StronglySorted_le_NoDup_lt.
Qed.

(** ** The scenario of the specification *)

(** [shuffle] does write to the array it is given: on the catalogue
    itself it would reorder the catalogue. *)
Example shuffle_in_place :
  (shuffle 0 (sample_world catalog5 sample_draws)).1 = 0 ∧
  arrays (shuffle 0 (sample_world catalog5 sample_draws)).2 0
  = [AD; AF; AG; AL; AE].
Proof. split; by vm_compute. Qed.

(** [start("Europe")] on the catalogue of 5 throws, the pool having 2
    records, and leaves the game as it was. *)
Example start_Europe_throws :
  (start (Some "Europe") sample_game
     (sample_world catalog5 sample_draws)).1
  = (Throw (TooFewCountries 2 (Some "Europe")), sample_game).
Proof. by vm_compute. Qed.

(** [start("all")] on the same catalogue gives 5 questions; the targets
    and the codes of the options of the round under [sample_draws]. *)
Example start_all_round :
  map (λ q, (correctCode q,
             code <$> options_of
               (start (Some "all") sample_game
                  (sample_world catalog5 sample_draws)).2 q))
      (questions started_game)
  = [("AD", ["AE"; "AG"; "AF"; "AD"]);
     ("AF", ["AD"; "AE"; "AL"; "AF"]);
     ("AG", ["AD"; "AG"; "AF"; "AL"]);
     ("AL", ["AL"; "AD"; "AG"; "AF"]);
     ("AE", ["AE"; "AG"; "AL"; "AF"])].
Proof. by vm_compute. Qed.

(** A correct answer, then a wrong one on the next question: the score
    is 1 after both. *)
Example answer_right_then_wrong :
  (submitAnswer "AD" started_game).1
  = Normal (Some {| correct := true; result_correctCode := "AD" |}) ∧
  score (submitAnswer "AD" started_game).2 = 1 ∧
  (submitAnswer "AD"
     (nextQuestion (submitAnswer "AD" started_game).2).2).1
  = Normal (Some {| correct := false; result_correctCode := "AF" |}) ∧
  score (submitAnswer "AD"
           (nextQuestion (submitAnswer "AD" started_game).2).2).2 = 1.
Proof. repeat split; by vm_compute. Qed.

(** The labels of a catalogue with Antarctica and a repeated label. *)
Example continents_sample :
  continents_of
    [AD; mkCountry "AQ" "Antarctica" "Antarctica"; AU; AO; AE; AL; AF]
  = ["Africa"; "Asia"; "Europe"; "Oceania"].
Proof. by vm_compute. Qed.

(** * Further properties of the engine *)

(** ** shuffle *)

Lemma array_swap_oracle a i j w :
  draws (array_swap a i j w).2 = draws w ∧
  tick (array_swap a i j w).2 = tick w.
Proof.
  unfold array_swap. rewrite mbind_unfold. cbn [array_get fst snd].
  by destruct (arrays w a !! j), (arrays w a !! i).
Qed.

Lemma random_floor_oracle n w :
  draws (random_floor n w).2 = draws w ∧
  tick (random_floor n w).2 = S (tick w).
Proof. done. Qed.

Lemma shuffle_loop_oracle a i : ∀ w,
  draws (shuffle_loop a i w).2 = draws w ∧
  tick (shuffle_loop a i w).2 = tick w + i.
Proof.
  induction i as [|i IH]; intros w.
  - split; [done|]. cbn. lia.
  - cbn [shuffle_loop]. rewrite !mbind_unfold.
    set (w1 := (random_floor (S i + 1) w).2).
    set (j := (random_floor (S i + 1) w).1).
    destruct (array_swap_oracle a (S i) j w1) as [Hd Ht].
    destruct (IH (array_swap a (S i) j w1).2) as [Hd' Ht'].
    destruct (random_floor_oracle (S i + 1) w) as [Hd0 Ht0]. fold w1 in Hd0, Ht0.
    rewrite Hd', Ht', Hd, Ht, Hd0, Ht0. split; [done|lia].
Qed.

(** [shuffle] hands back the reference it was given; the array behind
    it holds the same elements in some order; no other array changes
    and none is allocated. *)
Theorem shuffle_permutes_in_place a w :
  (shuffle a w).1 = a ∧
  arrays (shuffle a w).2 a ≡ₚ arrays w a ∧
  length (arrays (shuffle a w).2 a) = length (arrays w a) ∧
  (∀ b, b ≠ a → arrays (shuffle a w).2 b = arrays w b) ∧
  next (shuffle a w).2 = next w.
Proof.
  destruct (shuffle_spec a w) as (Hr & Hperm & Hn & Hother).
  split; [done|]. split; [done|].
  split; [by rewrite Hperm|]. by split.
Qed.

(** [shuffle] asks [Math.random] once for every index from the last down
    to 1: an array of [n] elements consumes [n - 1] draws, an empty
    array none. *)
Theorem shuffle_draw_count a w :
  tick (shuffle a w).2 = tick w + (length (arrays w a) - 1) ∧
  draws (shuffle a w).2 = draws w.
Proof.
  unfold shuffle. rewrite !mbind_unfold.
  change (array_length a w) with (length (arrays w a), w). cbn [fst snd].
  destruct (shuffle_loop_oracle a (length (arrays w a) - 1) w) as [Hd Ht].
  by split.
Qed.

(** On an array with at most one element [shuffle] does nothing at all:
    no write and no draw. *)
Theorem shuffle_short_array a w :
  length (arrays w a) ≤ 1 → shuffle a w = (a, w).
Proof.
  intros Hlen. unfold shuffle. rewrite !mbind_unfold.
  change (array_length a w) with (length (arrays w a), w). cbn [fst snd].
  replace (length (arrays w a) - 1) with 0 by lia. done.
Qed.

(** An array with the single record AD. *)
Lemma shuffle_short_array_witness :
  length (arrays (sample_world [AD] sample_draws) 0) ≤ 1 ∧
  shuffle 0 (sample_world [AD] sample_draws)
  = (0, sample_world [AD] sample_draws).
Proof.
  assert (length (arrays (sample_world [AD] sample_draws) 0) ≤ 1) as Hlen
    by (simpl; lia).
  split; [exact Hlen|].
  exact (shuffle_short_array 0 (sample_world [AD] sample_draws) Hlen).
Defined.

(** *** Every order can come out *)

Section prefix_facts.
Context {A : Type}.
Implicit Types l : list A.

(** Two permutations of each other that agree after position [i] hold
    the same elements up to position [i]. *)
Lemma Permutation_agree_after l1 l2 i x :
  l1 ≡ₚ l2 →
  (∀ k, i < k → l1 !! k = l2 !! k) →
  l1 !! i = Some x →
  ∃ j, j ≤ i ∧ l2 !! j = Some x.
Proof.
  intros Hperm Hafter Hx.
  assert (drop (S i) l1 = drop (S i) l2) as Hdrop.
  { apply list_eq. intros k. rewrite !lookup_drop. apply Hafter. lia. }
  assert (take (S i) l1 ≡ₚ take (S i) l2) as Htake.
  { apply (Permutation_app_inv_r (drop (S i) l1)).
    rewrite take_drop, Hdrop, take_drop. done. }
  assert (x ∈ take (S i) l2) as Hin.
  { rewrite <- Htake. apply elem_of_take. exists i. split; [done|lia]. }
  apply elem_of_take in Hin as (j & Hj & Hlt). exists j. split; [lia|done].
Qed.

Lemma exchange_lookup l i j ai aj :
  l !! i = Some ai → l !! j = Some aj →
  <[j := ai]> (<[i := aj]> l) !! i = Some aj ∧
  ∀ k, k ≠ i → k ≠ j → <[j := ai]> (<[i := aj]> l) !! k = l !! k.
Proof.
  intros Hi Hj. split.
  - destruct (decide (j = i)) as [->|Hne].
    + rewrite list_lookup_insert_eq
        by (rewrite length_insert; by eapply lookup_lt_Some).
      congruence.
    + rewrite list_lookup_insert_ne by done.
      apply list_lookup_insert_eq. by eapply lookup_lt_Some.
  - intros k Hki Hkj. by rewrite !list_lookup_insert_ne.
Qed.

End prefix_facts.

Lemma same_future_refl w : same_future w w.
Proof. by repeat split. Qed.

Lemma random_floor_same_future n w1 w2 :
  same_future w1 w2 →
  (random_floor n w1).1 = (random_floor n w2).1 ∧
  same_future (random_floor n w1).2 (random_floor n w2).2.
Proof.
  intros (Ha & Hn & Ht & Hd). unfold random_floor. rewrite !mbind_unfold.
  cbn [Math_random mret M_ret fst snd arrays next tick draws].
  rewrite <- Ht, (Hd (tick w1)) by done.
  split; [done|]. unfold same_future. cbn [arrays next tick draws].
  split; [done|]. split; [done|]. split; [done|].
  intros k Hk. apply Hd. lia.
Qed.

Lemma array_swap_same_future a i j w1 w2 :
  same_future w1 w2 →
  same_future (array_swap a i j w1).2 (array_swap a i j w2).2.
Proof.
  intros (Ha & Hn & Ht & Hd). unfold array_swap. rewrite !mbind_unfold.
  cbn [array_get fst snd]. rewrite (Ha a).
  destruct (arrays w2 a !! j), (arrays w2 a !! i);
    try (by repeat split).
  unfold same_future, array_set.
  cbn [mret M_ret fst snd arrays next tick draws].
  split; [|done]. intros b. unfold insert, fn_insert.
  destruct (decide (a = b)); [done|apply Ha].
Qed.

Lemma array_swap_set_draws a i j ds w :
  (array_swap a i j (set_draws ds w)).2
  = set_draws ds (array_swap a i j w).2.
Proof.
  unfold array_swap. rewrite !mbind_unfold. cbn [array_get set_draws fst snd arrays].
  by destruct (arrays w a !! j), (arrays w a !! i).
Qed.

(** What [shuffle_loop] does to the arrays depends on the draws that
    are still to come only. *)
Lemma shuffle_loop_same_future a i : ∀ w1 w2,
  same_future w1 w2 →
  same_future (shuffle_loop a i w1).2 (shuffle_loop a i w2).2.
Proof.
  induction i as [|i IH]; intros w1 w2 Hsame; [done|].
  cbn [shuffle_loop]. rewrite !mbind_unfold.
  destruct (random_floor_same_future (S i + 1) w1 w2 Hsame) as [-> Hsame'].
  by apply IH, array_swap_same_future.
Qed.

Lemma shuffle_loop_reaches a i : ∀ w target,
  i < length (arrays w a) ∨ i = 0 →
  (Z.of_nat (length (arrays w a)) ≤ random_resolution)%Z →
  target ≡ₚ arrays w a →
  (∀ k, i < k → target !! k = arrays w a !! k) →
  ∃ ds, arrays (shuffle_loop a i (set_draws ds w)).2 a = target.
Proof.
  induction i as [|i IH]; intros w target Hi Hsize Hperm Hafter.
  - exists (draws w). cbn. symmetry. apply list_eq. intros [|k].
    + destruct (target !! 0) as [x|] eqn:Hx.
      * destruct (Permutation_agree_after _ _ 0 x Hperm Hafter Hx)
          as (j & Hj & Hl).
        by replace j with 0 in Hl by lia.
      * apply lookup_ge_None in Hx. symmetry.
        apply lookup_ge_None. by rewrite <- (Permutation_length Hperm).
    + apply Hafter. lia.
  - destruct Hi as [Hi|]; [|done].
    set (l := arrays w a) in *.
    assert (length target = length l) as Hlen by by rewrite Hperm.
    destruct (lookup_lt_is_Some_2 target (S i) ltac:(lia)) as [t Ht].
    destruct (lookup_lt_is_Some_2 l (S i) Hi) as [ai Hai].
    destruct (Permutation_agree_after _ _ (S i) t Hperm Hafter Ht)
      as (j & Hj & Hlj).
    destruct (random_floor_onto (S i + 1) j ltac:(lia) ltac:(lia))
      as [d Hd].
    (* the world after the first round of the loop, index [j] drawn *)
    set (w2 := (array_swap a (S i) j (random_floor (S i + 1) w).2).2).
    assert (arrays w2 a = <[j := ai]> (<[S i := t]> l)) as Hw2.
    { unfold w2, array_swap. rewrite mbind_unfold.
      cbn [array_get fst snd].
      rewrite (proj1 (random_floor_store (S i + 1) w)). fold l.
      rewrite Hlj, Hai. cbn [array_set snd arrays].
      apply fn_lookup_insert. }
    destruct (exchange_lookup l (S i) j ai t Hai Hlj) as [Hat Hrest].
    destruct (IH w2 target) as [ds' Hds'].
    { left. rewrite Hw2, !length_insert. lia. }
    { by rewrite Hw2, !length_insert. }
    { rewrite Hw2, Hperm. symmetry. by apply exchange_Permutation. }
    { intros k Hk. rewrite Hw2.
      destruct (decide (k = S i)) as [->|Hne]; [by rewrite Hat|].
      rewrite Hrest by lia. apply Hafter. lia. }
    exists (<[tick w := d]> ds').
    cbn [shuffle_loop]. rewrite !mbind_unfold.
    rewrite (Hd (set_draws (<[tick w := d]> ds') w))
      by apply fn_lookup_insert.
    rewrite <- Hds'.
    apply shuffle_loop_same_future. unfold w2.
    assert (same_future
              (random_floor (S i + 1) (set_draws (<[tick w:=d]> ds') w)).2
              (set_draws ds' (random_floor (S i + 1) w).2)) as Hfirst.
    { destruct (random_floor_oracle (S i + 1)
                  (set_draws (<[tick w:=d]> ds') w)) as [Hd1 Ht1].
      split; [done|]. split; [done|]. split; [done|].
      intros k Hk. rewrite Ht1 in Hk. rewrite Hd1.
      cbn [set_draws draws tick] in Hk |- *.
      apply fn_lookup_insert_ne. lia. }
    rewrite <- array_swap_set_draws.
    by apply array_swap_same_future.
Qed.

(** Every order of the elements is the outcome of [shuffle] under some
    sequence of draws (arrays of up to 2^53 elements). *)
Theorem shuffle_reaches_every_order a w target :
  target ≡ₚ arrays w a →
  (Z.of_nat (length (arrays w a)) ≤ random_resolution)%Z →
  ∃ ds, arrays (shuffle a (set_draws ds w)).2 a = target.
Proof.
  intros Hperm Hsize.
  destruct (shuffle_loop_reaches a (length (arrays w a) - 1) w target)
    as [ds Hds]; [lia|done|done| |].
  - intros k Hk. rewrite !lookup_ge_None_2; [done|lia|].
    rewrite (Permutation_length Hperm). lia.
  - exists ds. unfold shuffle. rewrite !mbind_unfold.
    change (array_length a (set_draws ds w))
      with (length (arrays w a), set_draws ds w).
    done.
Qed.

(** The catalogue of 5 in the opposite order. *)
Lemma shuffle_reaches_every_order_witness :
  reverse catalog5 ≡ₚ arrays (sample_world catalog5 sample_draws) 0 ∧
  (Z.of_nat (length (arrays (sample_world catalog5 sample_draws) 0%nat))
   ≤ random_resolution)%Z ∧
  ∃ ds,
    arrays (shuffle 0 (set_draws ds (sample_world catalog5 sample_draws))).2 0
    = reverse catalog5.
Proof.
  assert (reverse catalog5
          ≡ₚ arrays (sample_world catalog5 sample_draws) 0) as Hperm
    by apply reverse_Permutation.
  assert (Z.of_nat (length (arrays (sample_world catalog5 sample_draws) 0%nat))
          ≤ random_resolution)%Z as Hsize by (by vm_compute).
  split; [exact Hperm|]. split; [exact Hsize|].
  exact (shuffle_reaches_every_order 0
           (sample_world catalog5 sample_draws) (reverse catalog5)
           Hperm Hsize).
Defined.

(** ** generate *)

(** The targets are records of the pool. *)
Lemma generate_targets_in_pool pool count w q :
  q ∈ (generate pool count w).1 → country q ∈ arrays w pool.
Proof.
  intros Hq.
  destruct (generate_spec pool count w) as (_ & (sh & Hperm & Hmap) & _).
  rewrite <- Hperm. eapply elem_of_sublist; [|apply (slice0_sublist count)].
  rewrite <- Hmap. by apply list_elem_of_fmap_2.
Qed.

(** Every question asks for a record of the pool, shows that record
    among its options, and shows records of the pool only. *)
Theorem generate_options_from_pool pool count w :
  pool < next w →
  Forall (λ q,
      country q ∈ arrays w pool ∧
      country q ∈ options_of (generate pool count w).2 q ∧
      ∀ o, o ∈ options_of (generate pool count w).2 q → o ∈ arrays w pool)
    (generate pool count w).1.
Proof.
  intros Hpool.
  destruct (generate_spec pool count w) as (_ & _ & Hqs).
  specialize (Hqs Hpool). rewrite Forall_forall in Hqs |- *.
  intros q Hq. pose proof (generate_targets_in_pool _ _ _ _ Hq) as Hin.
  destruct (Hqs q Hq) as (_ & _ & ds & Hds & Hopts).
  unfold options_of. split; [done|]. split.
  - rewrite Hopts. constructor.
  - intros o. rewrite Hopts, elem_of_cons. intros [->|Ho]; [done|].
    pose proof (elem_of_sublist _ _ _ Ho (sublist_take ds 3)) as Ho'.
    rewrite Hds in Ho'. by apply list_elem_of_filter in Ho' as [_ ?].
Qed.

(** A round from the catalogue of 5. *)
Lemma generate_options_from_pool_witness :
  0 < next (sample_world catalog5 sample_draws) ∧
  Forall (λ q,
      country q ∈ arrays (sample_world catalog5 sample_draws) 0 ∧
      country q
        ∈ options_of (generate 0 10 (sample_world catalog5 sample_draws)).2 q ∧
      ∀ o,
        o ∈ options_of (generate 0 10 (sample_world catalog5 sample_draws)).2 q →
        o ∈ arrays (sample_world catalog5 sample_draws) 0)
    (generate 0 10 (sample_world catalog5 sample_draws)).1.
Proof.
  assert (0 < next (sample_world catalog5 sample_draws)) as H0
    by (simpl; lia).
  split; [exact H0|].
  exact (generate_options_from_pool 0 10
           (sample_world catalog5 sample_draws) H0).
Defined.

(** [generate] does not check the size of the pool: a question has its
    target and up to 3 other records, as many as the pool has records
    with another code.  With fewer than 3 of those the question has
    fewer than 4 options. *)
Theorem generate_options_count pool count w :
  pool < next w →
  Forall (λ q,
      length (options_of (generate pool count w).2 q)
      = S (3 `min` length (filter (λ c, code c ≠ code (country q))
                             (arrays w pool))))
    (generate pool count w).1.
Proof.
  intros Hpool.
  destruct (generate_spec pool count w) as (_ & _ & Hqs).
  eapply Forall_impl; [exact (Hqs Hpool)|]. intros q Hq. cbn beta.
  by destruct (question_for_options _ _ _ Hq) as (Hlen & _).
Qed.

(** A pool of two records. *)
Lemma generate_options_count_witness :
  0 < next (sample_world [AD; AE] sample_draws) ∧
  Forall (λ q,
      length (options_of (generate 0 10 (sample_world [AD; AE] sample_draws)).2
                q)
      = S (3 `min` length (filter (λ c, code c ≠ code (country q))
                             (arrays (sample_world [AD; AE] sample_draws) 0))))
    (generate 0 10 (sample_world [AD; AE] sample_draws)).1.
Proof.
  assert (0 < next (sample_world [AD; AE] sample_draws)) as H0
    by (simpl; lia).
  split; [exact H0|].
  exact (generate_options_count 0 10 (sample_world [AD; AE] sample_draws) H0).
Defined.

(** The round from a pool of two records: two questions with two
    options each. *)
Example generate_small_pool :
  map (λ q, length (options_of
                      (generate 0 10 (sample_world [AD; AE] sample_draws)).2 q))
      (generate 0 10 (sample_world [AD; AE] sample_draws)).1
  = [2; 2].
Proof. by vm_compute. Qed.

(** [slice(0, count)] counts a negative [count] from the end: asked for
    [-k] questions, [generate] returns all but [k] of the pool (none
    when the pool has at most [k] records). *)
Theorem generate_negative_count pool (count : Z) w :
  (count < 0)%Z →
  length (generate pool count w).1
  = length (arrays w pool) - Z.to_nat (- count).
Proof.
  intros Hneg.
  destruct (generate_spec pool count w) as (_ & (sh & Hperm & Hmap) & _).
  rewrite <- (length_fmap country), Hmap. unfold slice0.
  rewrite (proj2 (Z.ltb_lt count 0) Hneg), length_take.
  rewrite (Permutation_length Hperm). lia.
Qed.

(** Asked for -2 questions from the catalogue of 5. *)
Lemma generate_negative_count_witness :
  (-2 < 0)%Z ∧
  length (generate 0 (-2) (sample_world catalog5 sample_draws)).1
  = length (arrays (sample_world catalog5 sample_draws) 0) - Z.to_nat (- -2).
Proof.
  assert (-2 < 0)%Z as Hneg by lia.
  split; [exact Hneg|].
  exact (generate_negative_count 0 (-2)
           (sample_world catalog5 sample_draws) Hneg).
Defined.

(** When [count] is at least the size of the pool, every record of the
    pool is the target of exactly one question. *)
Theorem generate_covers_pool pool (count : nat) w :
  length (arrays w pool) ≤ count →
  country <$> (generate pool (Z.of_nat count) w).1 ≡ₚ arrays w pool.
Proof.
  intros Hlen.
  destruct (generate_spec pool (Z.of_nat count) w)
    as (_ & (sh & Hperm & ->) & _).
  rewrite slice0_of_nat, take_ge; [done|].
  by rewrite (Permutation_length Hperm).
Qed.

(** Ten questions asked from the catalogue of 5. *)
Lemma generate_covers_pool_witness :
  length (arrays (sample_world catalog5 sample_draws) 0) ≤ 10 ∧
  country <$> (generate 0 (Z.of_nat 10)
                 (sample_world catalog5 sample_draws)).1
  ≡ₚ arrays (sample_world catalog5 sample_draws) 0.
Proof.
  assert (length (arrays (sample_world catalog5 sample_draws) 0) ≤ 10)
    as Hlen by (simpl; lia).
  split; [exact Hlen|].
  exact (generate_covers_pool 0 10
           (sample_world catalog5 sample_draws) Hlen).
Defined.

(** *** The option arrays *)

Lemma make_question_allocates pool c w :
  options (make_question pool c w).1 = next w + 2 ∧
  next (make_question pool c w).2 = next w + 3.
Proof.
  unfold make_question. rewrite mbind_unfold.
  set (F := filter (λ c', code c' ≠ code c) (arrays w pool)).
  change (array_filter _ pool w) with (array_new F w).
  rewrite mbind_unfold.
  destruct (shuffle_new_spec F w) as (Ha & -> & _ & Hn & _).
  set (filtered := (array_new F w).1) in *.
  set (w2 := (shuffle filtered (array_new F w).2).2) in *.
  rewrite mbind_unfold.
  set (D := slice0 (Z.of_nat (OPTIONS_COUNT - 1)) (arrays w2 filtered)).
  change (array_slice0 filtered _ w2) with (array_new D w2).
  destruct (array_new_spec D w2) as (Hd & _ & Hdn & _).
  set (distractors := (array_new D w2).1) in *.
  set (w3 := (array_new D w2).2) in *.
  rewrite mbind_unfold.
  change (array_cons c distractors w3)
    with (array_new (c :: arrays w3 distractors) w3).
  rewrite mbind_unfold.
  destruct (shuffle_new_spec (c :: arrays w3 distractors) w3)
    as (Hf & -> & _ & Hfn & _).
  cbn [mret M_ret fst snd new_Question options].
  rewrite Hfn, Hf, Hdn, Hn. split; lia.
Qed.

Lemma array_map_loop_options pool sel n : ∀ k w,
  let r := array_map_loop (make_question pool) sel k n w in
  next w ≤ next r.2 ∧
  Forall (λ q, next w ≤ options q < next r.2) r.1 ∧
  NoDup (options <$> r.1).
Proof.
  induction n as [|n IH]; intros k w r; subst r.
  - split; [done|]. split; constructor.
  - cbn [array_map_loop]. rewrite mbind_unfold. cbn [array_get fst snd].
    destruct (arrays w sel !! k) as [x|]; [|apply IH].
    rewrite !mbind_unfold.
    destruct (make_question_allocates pool x w) as [Ho Hn].
    set (q := (make_question pool x w).1) in *.
    set (w1 := (make_question pool x w).2) in *.
    destruct (IH (S k) w1) as (Hle & Hall & Hnd).
    set (r := array_map_loop (make_question pool) sel (S k) n w1) in *.
    cbn [mret M_ret fst snd]. split; [lia|]. split.
    + constructor; [lia|].
      eapply Forall_impl; [exact Hall|]. intros q' Hq'. cbn beta in *. lia.
    + rewrite fmap_cons. apply NoDup_cons. split; [|done].
      intros (q' & Heq & Hq')%list_elem_of_fmap.
      rewrite Forall_forall in Hall. specialize (Hall q' Hq'). lia.
Qed.

(** Every question gets an options array of its own, allocated by the
    call: none of them is an array that existed before (the pool in
    particular), and no two questions share one. *)
Theorem generate_fresh_option_arrays pool count w :
  Forall (λ q, next w ≤ options q < next (generate pool count w).2)
    (generate pool count w).1 ∧
  NoDup (options <$> (generate pool count w).1).
Proof.
  unfold generate. rewrite mbind_unfold.
  change (array_spread pool w) with (array_new (arrays w pool) w).
  rewrite mbind_unfold.
  destruct (shuffle_new_spec (arrays w pool) w) as (_ & -> & _ & Hn & _).
  set (copy := (array_new (arrays w pool) w).1) in *.
  set (w2 := (shuffle copy (array_new (arrays w pool) w).2).2) in *.
  rewrite mbind_unfold.
  set (sel := slice0 count (arrays w2 copy)).
  change (array_slice0 copy count w2) with (array_new sel w2).
  destruct (array_new_spec sel w2) as (_ & _ & Hsn & _).
  set (w3 := (array_new sel w2).2) in *.
  unfold array_map. rewrite mbind_unfold.
  change (array_length (array_new sel w2).1 w3)
    with (length (arrays w3 (array_new sel w2).1), w3).
  cbn [fst snd].
  destruct (array_map_loop_options pool (array_new sel w2).1
              (length (arrays w3 (array_new sel w2).1)) 0 w3)
    as (Hle & Hall & Hnd).
  split; [|done].
  eapply Forall_impl; [exact Hall|]. intros q Hq. cbn beta in *. lia.
Qed.

(** ** start *)

Lemma NoDup_distinct_codes (P : list Country) :
  NoDup (code <$> P) → distinct_codes P = length P.
Proof.
  intros Hnd. unfold distinct_codes.
  rewrite <- (length_fmap code P). apply Permutation_length.
  apply NoDup_Permutation; [apply NoDup_remove_dups|done|].
  intros x. apply elem_of_remove_dups.
Qed.

Lemma pool_elems_sublist catalog selected :
  pool_elems catalog selected `sublist_of` catalog.
Proof.
  unfold pool_elems. destruct (wants_filter selected); [|done].
  apply sublist_filter.
Qed.

(** The options of a question made from [P] are records of [P]. *)
Lemma question_for_members P w q :
  question_for P w q → country q ∈ P →
  ∀ o, o ∈ options_of w q → o ∈ P.
Proof.
  intros (_ & _ & ds & Hds & Hopts) Hc o. unfold options_of.
  rewrite Hopts, elem_of_cons. intros [->|Ho]; [done|].
  pose proof (elem_of_sublist _ _ _ Ho (sublist_take ds 3)) as Ho'.
  rewrite Hds in Ho'. by apply list_elem_of_filter in Ho' as [_ ?].
Qed.

(** A start that throws leaves the game as it was: the round in
    progress, its position and its score are still there. *)
Theorem start_failure_keeps_game selected g w :
  throws (start selected g w).1.1 → (start selected g w).1.2 = g.
Proof. rewrite start_unfold. by case_bool_decide. Qed.

(** [start("Europe")] on the catalogue of 5, in the middle of a round. *)
Lemma start_failure_keeps_game_witness :
  throws (start (Some "Europe") (submitAnswer "AD" started_game).2
            (sample_world catalog5 sample_draws)).1.1 ∧
  (start (Some "Europe") (submitAnswer "AD" started_game).2
     (sample_world catalog5 sample_draws)).1.2
  = (submitAnswer "AD" started_game).2.
Proof.
  assert (throws (start (Some "Europe") (submitAnswer "AD" started_game).2
                    (sample_world catalog5 sample_draws)).1.1) as Hthrow
    by (by vm_compute).
  split; [exact Hthrow|].
  exact (start_failure_keeps_game (Some "Europe")
           (submitAnswer "AD" started_game).2
           (sample_world catalog5 sample_draws) Hthrow).
Defined.

(** The guard of [start] is enough for well-formed questions: when the
    codes of the catalogue are pairwise distinct, every question of a
    round that [start] installs has 4 options with pairwise-distinct
    codes, exactly one of them with the code [correctCode], which is the
    code of the target. *)
Theorem start_round_well_formed selected g w :
  NoDup (code <$> arrays w (allCountries g)) →
  (start selected g w).1.1 = Normal tt →
  Forall (four_distinct_options (start selected g w).2)
    (questions (start selected g w).1.2).
Proof.
  intros Hnd. rewrite start_unfold.
  set (P := pool_elems (arrays w (allCountries g)) selected).
  case_bool_decide as Hlen; [done|]. intros _. cbn [fst snd started questions].
  destruct (array_new_spec P w) as (_ & Hel & Hn & _).
  set (w1 := (array_new P w).2) in *.
  destruct (generate_spec (next w) QUESTIONS_PER_ROUND w1) as (_ & _ & Hqs).
  assert (NoDup (code <$> P)) as HndP.
  { eapply sublist_NoDup; [exact Hnd|].
    apply fmap_sublist, pool_elems_sublist. }
  eapply Forall_impl; [apply Hqs; lia|]. intros q Hq. cbn beta.
  rewrite Hel in Hq.
  destruct (question_for_options _ _ _ Hq) as (Hopts & Hone & Hc & Hdist).
  split; [|by auto]. rewrite Hopts.
  pose proof (filter_other_codes_length P (code (country q))) as Hother.
  rewrite (NoDup_distinct_codes P HndP) in Hother.
  unfold OPTIONS_COUNT in Hlen. lia.
Qed.

(** A round on the catalogue of 10. *)
Lemma start_round_well_formed_witness :
  NoDup (code <$> arrays (sample_world catalog10 sample_draws)
                    (allCountries sample_game)) ∧
  (start None sample_game (sample_world catalog10 sample_draws)).1.1
  = Normal tt ∧
  Forall (four_distinct_options
            (start None sample_game (sample_world catalog10 sample_draws)).2)
    (questions
       (start None sample_game (sample_world catalog10 sample_draws)).1.2).
Proof.
  assert (NoDup (code <$> arrays (sample_world catalog10 sample_draws)
                            (allCountries sample_game))) as Hnd
    by compute_done.
  assert ((start None sample_game
             (sample_world catalog10 sample_draws)).1.1 = Normal tt) as Hok
    by (by vm_compute).
  split; [exact Hnd|]. split; [exact Hok|].
  exact (start_round_well_formed None sample_game
           (sample_world catalog10 sample_draws) Hnd Hok).
Defined.

(** A round started with a continent stays in that continent: every
    target and every option of every question is a record of the
    catalogue with that continent. *)
Theorem start_round_in_continent (s : string) g w :
  s ≠ "" → s ≠ "all" →
  (start (Some s) g w).1.1 = Normal tt →
  Forall (λ q,
      continent (country q) = s ∧
      country q ∈ arrays w (allCountries g) ∧
      ∀ o, o ∈ options_of (start (Some s) g w).2 q →
           continent o = s ∧ o ∈ arrays w (allCountries g))
    (questions (start (Some s) g w).1.2).
Proof.
  intros Hempty Hall. rewrite start_unfold.
  set (P := pool_elems (arrays w (allCountries g)) (Some s)).
  case_bool_decide as Hlen; [done|]. intros _. cbn [fst snd started questions].
  assert (∀ c, c ∈ P → continent c = s ∧ c ∈ arrays w (allCountries g))
    as HP.
  { intros c. unfold P. rewrite pool_elems_falsy_or_all.
    cbn [falsy_or_all_pool].
    rewrite bool_decide_eq_false_2 by tauto.
    by intros ?%list_elem_of_filter. }
  destruct (array_new_spec P w) as (_ & Hel & Hn & _).
  set (w1 := (array_new P w).2) in *.
  destruct (generate_spec (next w) QUESTIONS_PER_ROUND w1) as (_ & _ & Hqs).
  specialize (Hqs ltac:(lia)). rewrite Hel in Hqs.
  rewrite Forall_forall in Hqs |- *. intros q Hq.
  pose proof (generate_targets_in_pool _ _ _ _ Hq) as Hin.
  rewrite Hel in Hin. destruct (HP _ Hin) as [Hcont Hcat].
  split; [done|]. split; [done|].
  intros o Ho. apply HP. by eapply question_for_members; [apply Hqs|..].
Qed.

(** A round of Asian countries from the catalogue of 10. *)
Lemma start_round_in_continent_witness :
  "Asia" ≠ "" ∧ "Asia" ≠ "all" ∧
  (start (Some "Asia") sample_game
     (sample_world (catalog10 ++ [mkCountry "AZ" "Azerbaijan" "Asia"])
        sample_draws)).1.1 = Normal tt ∧
  Forall (λ q, continent (country q) = "Asia")
    (questions
       (start (Some "Asia") sample_game
          (sample_world (catalog10 ++ [mkCountry "AZ" "Azerbaijan" "Asia"])
             sample_draws)).1.2).
Proof.
  assert ("Asia" ≠ "") as H1 by done.
  assert ("Asia" ≠ "all") as H2 by done.
  assert ((start (Some "Asia") sample_game
             (sample_world (catalog10 ++ [mkCountry "AZ" "Azerbaijan" "Asia"])
                sample_draws)).1.1 = Normal tt) as Hok by (by vm_compute).
  split; [exact H1|]. split; [exact H2|]. split; [exact Hok|].
  eapply Forall_impl;
    [exact (start_round_in_continent "Asia" sample_game _ H1 H2 Hok)|].
  by intros q [? _].
Defined.

(** ** Sessions *)

(** The three ways [submitAnswer] ends: it returns [null] exactly when
    the question was answered before, it throws a [TypeError] exactly
    when it was not and no question is left, and it returns a result
    record exactly when it was not and a question is there. *)
Theorem submitAnswer_outcomes selectedCode g :
  ((submitAnswer selectedCode g).1 = Normal None ↔ answered g = true) ∧
  (throws (submitAnswer selectedCode g).1
   ↔ answered g = false ∧ length (questions g) ≤ currentIndex g) ∧
  ((∃ result, (submitAnswer selectedCode g).1 = Normal (Some result))
   ↔ answered g = false ∧ currentIndex g < length (questions g)).
Proof.
  destruct (answered g) eqn:Hans.
  - rewrite submitAnswer_answered by done. cbn [fst throws].
    split; [done|]. split; [by split; [|intros [? _]]|].
    split; [by intros [? ?]|by intros [? _]].
  - destruct (questions g !! currentIndex g) as [q|] eqn:Hq.
    + rewrite (submitAnswer_in_round _ _ q Hans Hq). cbn [fst throws].
      pose proof (lookup_lt_Some _ _ _ Hq).
      split; [done|]. split; [split; [done|lia]|].
      split; [done|]. intros _. by eexists.
    + destruct (submitAnswer_round_over selectedCode g Hans) as [-> _];
        [by apply lookup_ge_None|].
      apply lookup_ge_None in Hq. cbn [throws].
      split; [done|]. split; [done|].
      split; [by intros [? ?]|]. intros [_ ?]. lia.
Qed.

Lemma make_move_fields g m :
  questions (make_move g m) = questions g ∧
  allCountries (make_move g m) = allCountries g ∧
  score g ≤ score (make_move g m) ∧
  currentIndex g ≤ currentIndex (make_move g m).
Proof.
  destruct m as [c|]; cbn [make_move].
  - unfold submitAnswer. destruct (answered g); [done|].
    cbn [questions currentIndex].
    destruct (questions g !! currentIndex g); [|done].
    destruct (isCorrect _ _); cbn; repeat split; lia.
  - cbn. repeat split; lia.
Qed.

(** Whatever a caller does between two starts, the score and the
    position never go down and the round stays the same. *)
Theorem session_monotone ms g :
  score g ≤ score (make_moves ms g) ∧
  currentIndex g ≤ currentIndex (make_moves ms g) ∧
  questions (make_moves ms g) = questions g ∧
  allCountries (make_moves ms g) = allCountries g.
Proof.
  revert g. induction ms as [|m ms IH]; intros g; [done|].
  change (make_moves (m :: ms) g) with (make_moves ms (make_move g m)).
  destruct (make_move_fields g m) as (Hq & Ha & Hs & Hi).
  destruct (IH (make_move g m)) as (Hs' & Hi' & Hq' & Ha').
  split; [lia|]. split; [lia|]. split; congruence.
Qed.

(** The score counts questions that were there and got an answer. *)
Lemma make_move_score_bound g m :
  let bound g := currentIndex g `min` length (questions g)
                 + (if answered g && bool_decide (currentIndex g < length (questions g))
                    then 1 else 0) in
  score g ≤ bound g → score (make_move g m) ≤ bound (make_move g m).
Proof.
  intros bound. subst bound. cbn beta.
  destruct m as [c|]; cbn [make_move].
  - unfold submitAnswer. destruct (answered g) eqn:Hans.
    { cbn [snd]. by rewrite Hans. }
    cbn [questions currentIndex andb].
    destruct (questions g !! currentIndex g) as [q|] eqn:Hq.
    + pose proof (lookup_lt_Some _ _ _ Hq).
      destruct (isCorrect _ _);
        cbn [snd score questions currentIndex answered andb];
        rewrite bool_decide_eq_true_2 by done; lia.
    + apply lookup_ge_None in Hq.
      cbn [snd score questions currentIndex answered andb].
      rewrite bool_decide_eq_false_2 by lia. lia.
  - cbn [nextQuestion snd score questions currentIndex answered andb].
    destruct (answered g), (bool_decide_reflect
                              (currentIndex g < length (questions g)));
      cbn [andb]; lia.
Qed.

(** From a start on, whatever the caller does, the score is at most the
    number of questions of the round, and at most the number of
    questions reached so far. *)
Theorem session_score_bounded ms g :
  score g = 0 →
  currentIndex g = 0 →
  score (make_moves ms g) ≤ totalQuestions (make_moves ms g) ∧
  score (make_moves ms g) ≤ currentIndex (make_moves ms g) + 1.
Proof.
  intros Hs Hi.
  assert (score (make_moves ms g)
          ≤ currentIndex (make_moves ms g)
              `min` length (questions (make_moves ms g))
            + (if answered (make_moves ms g)
                  && bool_decide (currentIndex (make_moves ms g)
                                  < length (questions (make_moves ms g)))
               then 1 else 0)) as Hbound.
  { assert (score g ≤ currentIndex g `min` length (questions g)
            + (if answered g
                  && bool_decide (currentIndex g < length (questions g))
               then 1 else 0)) as Hg by lia.
    clear Hs Hi. revert g Hg.
    induction ms as [|m ms IH]; intros g Hg; [done|].
    change (make_moves (m :: ms) g) with (make_moves ms (make_move g m)).
    apply IH. by apply make_move_score_bound. }
  unfold totalQuestions. revert Hbound.
  destruct (answered _); cbn [andb]; [case_bool_decide|]; lia.
Qed.

(** Moves on the sample game, some of them past the end of the round. *)
Lemma session_score_bounded_witness :
  score started_game = 0 ∧ currentIndex started_game = 0 ∧
  score (make_moves [Answer "AD"; Answer "AD"; Advance; Answer "AF";
                     Advance; Advance; Advance; Advance; Advance;
                     Answer "AD"] started_game)
  ≤ totalQuestions
      (make_moves [Answer "AD"; Answer "AD"; Advance; Answer "AF";
                   Advance; Advance; Advance; Advance; Advance;
                   Answer "AD"] started_game).
Proof.
  assert (score started_game = 0) as Hs by reflexivity.
  assert (currentIndex started_game = 0) as Hi by reflexivity.
  split; [exact Hs|]. split; [exact Hi|].
  exact (proj1 (session_score_bounded _ started_game Hs Hi)).
Defined.

(** *** Playing a round *)

Lemma play_round_spec answers : ∀ g,
  answered g = false →
  currentIndex g + length answers ≤ length (questions g) →
  (play_round answers g).1
  = (λ p, answer_result p.1 p.2)
      <$> zip answers (drop (currentIndex g) (questions g)) ∧
  score (play_round answers g).2
  = score g + right_answers answers (drop (currentIndex g) (questions g)) ∧
  currentIndex (play_round answers g).2 = currentIndex g + length answers ∧
  answered (play_round answers g).2 = false ∧
  questions (play_round answers g).2 = questions g.
Proof.
  induction answers as [|a rest IH]; intros g Hans Hlen.
  - cbn [play_round fst snd length]. unfold right_answers.
    repeat split; try done; cbn; lia.
  - cbn [length] in Hlen.
    destruct (lookup_lt_is_Some_2 (questions g) (currentIndex g) ltac:(lia))
      as [q Hq].
    cbn [play_round]. cbv zeta.
    rewrite (submitAnswer_in_round a g q Hans Hq). cbn [fst snd].
    set (g' := (nextQuestion _).2).
    destruct (IH g') as (Hres & Hscore & Hidx & Hans' & Hqs);
      [done|cbn; lia|].
    rewrite Hres, Hscore, Hidx, Hans', Hqs. clear Hres Hscore Hidx Hans' Hqs.
    cbn [g' nextQuestion snd currentIndex questions score].
    rewrite (drop_S _ _ _ Hq). replace (currentIndex g + 1) with
      (S (currentIndex g)) by lia.
    cbn [zip zip_with fmap list_fmap fst snd length].
    split; [done|]. split; [|split; [lia|done]].
    unfold right_answers. cbn [zip zip_with].
    case_bool_decide as Ha.
    + rewrite filter_cons_True by done. cbn [length]. lia.
    + rewrite filter_cons_False by done. lia.
Qed.

Lemma right_answers_all (qs : list Question) :
  right_answers (correctCode <$> qs) qs = length qs.
Proof.
  unfold right_answers. induction qs as [|q qs IH]; [done|].
  cbn [fmap list_fmap zip zip_with].
  rewrite filter_cons_True by done. cbn [length]. by rewrite IH.
Qed.

(** A round played to its end, one answer per question: every answer
    gets its result record ([correct] telling whether it was the code
    asked for), the score grows by the number of right answers, and the
    round is over. *)
Theorem play_round_counts_right_answers answers g :
  answered g = false →
  currentIndex g = 0 →
  length answers = totalQuestions g →
  (play_round answers g).1
  = (λ p, answer_result p.1 p.2) <$> zip answers (questions g) ∧
  score (play_round answers g).2
  = score g + right_answers answers (questions g) ∧
  currentQuestion (play_round answers g).2 = None.
Proof.
  unfold totalQuestions. intros Hans Hidx Hlen.
  destruct (play_round_spec answers g Hans ltac:(lia))
    as (Hres & Hscore & Hi & _ & Hqs).
  rewrite Hidx, drop_0 in Hres, Hscore.
  split; [done|]. split; [done|].
  unfold currentQuestion. rewrite Hi, Hqs, bool_decide_eq_true_2; [done|lia].
Qed.

(** The sample round with two right answers out of five. *)
Lemma play_round_counts_right_answers_witness :
  answered started_game = false ∧
  currentIndex started_game = 0 ∧
  length ["AD"; "AD"; "AG"; "AD"; "AD"] = totalQuestions started_game ∧
  score (play_round ["AD"; "AD"; "AG"; "AD"; "AD"] started_game).2
  = score started_game
    + right_answers ["AD"; "AD"; "AG"; "AD"; "AD"] (questions started_game).
Proof.
  assert (answered started_game = false) as Hans by reflexivity.
  assert (currentIndex started_game = 0) as Hidx by reflexivity.
  assert (length ["AD"; "AD"; "AG"; "AD"; "AD"]
          = totalQuestions started_game) as Hlen by (by vm_compute).
  split; [exact Hans|]. split; [exact Hidx|]. split; [exact Hlen|].
  exact (proj1 (proj2 (play_round_counts_right_answers _ started_game
                         Hans Hidx Hlen))).
Defined.

(** A round in which every answer is the [correctCode] of its question
    ends with one point per question. *)
Theorem play_round_perfect g :
  answered g = false →
  currentIndex g = 0 →
  score (play_round (correctCode <$> questions g) g).2
  = score g + totalQuestions g ∧
  isGameOver (play_round (correctCode <$> questions g) g).2 = true.
Proof.
  intros Hans Hidx.
  destruct (play_round_spec (correctCode <$> questions g) g Hans)
    as (_ & Hscore & Hi & _ & Hqs).
  { rewrite length_fmap. lia. }
  rewrite Hidx, drop_0, right_answers_all in Hscore.
  split; [done|]. unfold isGameOver.
  rewrite Hi, Hqs, length_fmap. apply bool_decide_eq_true_2. lia.
Qed.

(** The sample round, every answer right. *)
Lemma play_round_perfect_witness :
  answered started_game = false ∧
  currentIndex started_game = 0 ∧
  score (play_round (correctCode <$> questions started_game) started_game).2
  = score started_game + totalQuestions started_game.
Proof.
  assert (answered started_game = false) as Hans by reflexivity.
  assert (currentIndex started_game = 0) as Hidx by reflexivity.
  split; [exact Hans|]. split; [exact Hidx|].
  exact (proj1 (play_round_perfect started_game Hans Hidx)).
Defined.

(** ** continents *)

Global Instance string_le_antisymm : AntiSymm (=) string_le.
Proof. intros s1 s2. apply String.leb_antisym. Qed.

Lemma elem_of_continents_of (catalog : list Country) (label : string) :
  label ∈ continents_of catalog
  ↔ label ≠ "Antarctica" ∧ label ∈ continent <$> catalog.
Proof.
  unfold continents_of.
  destruct (spread_new_Set_spec (continent <$> catalog)) as [_ Hin].
  rewrite (proj1 (array_sort_spec _)), list_elem_of_filter, Hin. done.
Qed.

(** The list of continents depends on which labels occur in the
    catalogue only: not on the order of the records, nor on how often a
    label occurs. *)
Theorem continents_of_same_labels (catalog1 catalog2 : list Country) :
  (∀ label, label ∈ continent <$> catalog1 ↔ label ∈ continent <$> catalog2) →
  continents_of catalog1 = continents_of catalog2.
Proof.
  intros Hsame.
  assert (∀ catalog, NoDup (continents_of catalog)) as Hnd.
  { intros catalog. unfold continents_of.
    rewrite (proj1 (array_sort_spec _)).
    apply NoDup_filter, spread_new_Set_spec. }
  apply (StronglySorted_unique string_le);
    [apply array_sort_spec..|].
  apply NoDup_Permutation; [apply Hnd..|].
  intros label. rewrite !elem_of_continents_of, Hsame. done.
Qed.

(** The catalogue of 10 and the same records in the opposite order. *)
Lemma continents_of_same_labels_witness :
  (∀ label, label ∈ continent <$> catalog10
            ↔ label ∈ continent <$> reverse catalog10) ∧
  continents_of catalog10 = continents_of (reverse catalog10).
Proof.
  assert (∀ label, label ∈ continent <$> catalog10
                   ↔ label ∈ continent <$> reverse catalog10) as Hsame.
  { intros label. by rewrite fmap_reverse, elem_of_reverse. }
  split; [exact Hsame|].
  exact (continents_of_same_labels catalog10 (reverse catalog10) Hsame).
Defined.

(** [continents] lists a label however few records carry it: given to
    [start], a listed label (other than "" and "all") selects at least
    one record, and with fewer than 4 of them [start] throws. *)
Theorem listed_continent_too_small (label : string) g w :
  label ∈ (continents g w).1 →
  label ≠ "" → label ≠ "all" →
  length (filter (λ c, continent c = label) (arrays w (allCountries g))) < 4 →
  ∃ size,
    0 < size < 4 ∧
    (start (Some label) g w).1 = (Throw (TooFewCountries size (Some label)), g).
Proof.
  intros Hlisted Hempty Hall Hsmall.
  exists (length (filter (λ c, continent c = label)
                    (arrays w (allCountries g)))).
  assert (pool_elems (arrays w (allCountries g)) (Some label)
          = filter (λ c, continent c = label) (arrays w (allCountries g)))
    as Hpool.
  { rewrite pool_elems_falsy_or_all. cbn [falsy_or_all_pool].
    by rewrite bool_decide_eq_false_2 by tauto. }
  split.
  - split; [|done].
    unfold continents in Hlisted. rewrite mbind_unfold in Hlisted.
    cbn [array_get mret M_ret fst snd] in Hlisted.
    apply elem_of_continents_of in Hlisted as [_ Hin].
    apply list_elem_of_fmap in Hin as (c & -> & Hc).
    assert (c ∈ filter (λ c', continent c' = continent c)
                  (arrays w (allCountries g))) as Hfc
      by by apply list_elem_of_filter.
    destruct (filter _ _); [by apply elem_of_nil in Hfc|cbn; lia].
  - rewrite start_unfold, Hpool.
    by rewrite bool_decide_eq_true_2 by (unfold OPTIONS_COUNT; lia).
Qed.

(** Europe is listed for the catalogue of 5 and has two records. *)
Lemma listed_continent_too_small_witness :
  "Europe" ∈ (continents sample_game (sample_world catalog5 sample_draws)).1 ∧
  "Europe" ≠ "" ∧ "Europe" ≠ "all" ∧
  length (filter (λ c, continent c = "Europe")
            (arrays (sample_world catalog5 sample_draws)
               (allCountries sample_game))) < 4 ∧
  ∃ size,
    0 < size < 4 ∧
    (start (Some "Europe") sample_game
       (sample_world catalog5 sample_draws)).1
    = (Throw (TooFewCountries size (Some "Europe")), sample_game).
Proof.
  assert ("Europe"
          ∈ (continents sample_game (sample_world catalog5 sample_draws)).1)
    as Hin by compute_done.
  assert ("Europe" ≠ "") as H1 by done.
  assert ("Europe" ≠ "all") as H2 by done.
  assert (length (filter (λ c, continent c = "Europe")
                    (arrays (sample_world catalog5 sample_draws)
                       (allCountries sample_game))) < 4) as Hsmall
    by (vm_compute; lia).
  split; [exact Hin|]. split; [exact H1|]. split; [exact H2|].
  split; [exact Hsmall|].
  exact (listed_continent_too_small "Europe" sample_game
           (sample_world catalog5 sample_draws) Hin H1 H2 Hsmall).
Defined.

(** * The audio manager *)

Lemma audio_pause_lookup a els b e :
  audio_pause a els !! b = Some e →
  ∃ e', els !! b = Some e' ∧ (paused e = false → paused e' = false ∧ b ≠ a).
Proof.
  unfold audio_pause. destruct (decide (a = b)) as [->|Hne].
  - rewrite list_lookup_alter_eq. destruct (els !! b) as [e'|]; [|done].
    intros [= <-]. exists e'. split; [done|]. done.
  - rewrite list_lookup_alter_ne by done. intros He. exists e.
    split; [done|]. by intros ?.
Qed.

(** After [stop] nothing plays and there is no current element. *)
Lemma stop_spec s :
  only_current_plays s →
  AudioManager.currentAudio (AudioManager.stop s).1 = None ∧
  Forall (λ e, paused e = true) (AudioManager.stop s).2.
Proof.
  intros Hinv. unfold AudioManager.stop.
  destruct (AudioManager.currentAudio s.1) as [a|] eqn:Hcur; cbn [fst snd].
  - split; [done|]. apply Forall_lookup. intros b e He.
    destruct (paused e) eqn:Hp; [done|].
    apply audio_pause_lookup in He as (e' & He' & Hpaused).
    destruct (Hpaused Hp) as [Hp' Hne].
    specialize (Hinv b e' He' Hp'). congruence.
  - split; [done|]. apply Forall_lookup. intros b e He.
    destruct (paused e) eqn:Hp; [done|].
    specialize (Hinv b e He Hp). congruence.
Qed.

Lemma play_spec src volume p s :
  only_current_plays s →
  only_current_plays (AudioManager.play src volume p s) ∧
  (p = NoAudio ∨ volume_in_range volume = false →
   AudioManager.currentAudio (AudioManager.play src volume p s).1 = None ∧
   Forall (λ e, paused e = true) (AudioManager.play src volume p s).2).
Proof.
  intros Hinv. destruct (stop_spec s Hinv) as [Hcur Hall].
  set (s1 := AudioManager.stop s) in *.
  assert (only_current_plays s1) as Hinv1.
  { intros a e He Hp. rewrite Forall_lookup in Hall.
    rewrite (Hall a e He) in Hp. done. }
  assert (Forall (λ e, paused e = true) (s1.2 ++ [new_Audio src])) as Hall'.
  { apply Forall_app. split; [done|]. by repeat constructor. }
  assert (∀ els b e,
            Forall (λ e, paused e = true) els →
            audio_set_volume (length s1.2) volume els !! b = Some e →
            paused e = true) as Hvol.
  { intros els b e Hels. unfold audio_set_volume.
    rewrite Forall_lookup in Hels.
    destruct (decide (length s1.2 = b)) as [<-|Hne].
    - rewrite list_lookup_alter_eq.
      destruct (els !! length s1.2) as [e'|] eqn:He'; [|done].
      intros [= <-]. cbn. by eapply Hels.
    - rewrite list_lookup_alter_ne by done. apply Hels. }
  unfold AudioManager.play. fold s1. cbv zeta.
  destruct p.
  - split; [done|]. by intros _.
  - destruct (volume_in_range volume) eqn:Hrange.
    + split; [|by intros [?|?]].
      intros b e He Hp. cbn [fst snd] in *.
      rewrite (Hvol _ b e Hall' He) in Hp. done.
    + split; [|intros _; cbn [fst snd]; by split].
      intros b e He Hp. cbn [fst snd] in *.
      rewrite Forall_lookup in Hall'. rewrite (Hall' b e He) in Hp. done.
  - destruct (volume_in_range volume) eqn:Hrange.
    + split; [|by intros [?|?]].
      intros b e He Hp. cbn [fst snd AudioManager.currentAudio] in *.
      unfold audio_play in He.
      destruct (decide (length s1.2 = b)) as [<-|Hne]; [done|].
      rewrite list_lookup_alter_ne in He by done.
      rewrite (Hvol _ b e Hall' He) in Hp. done.
    + split; [|intros _; cbn [fst snd]; by split].
      intros b e He Hp. cbn [fst snd] in *.
      rewrite Forall_lookup in Hall'. rewrite (Hall' b e He) in Hp. done.
Qed.

Lemma run_audio_call_only_current s c :
  only_current_plays s → only_current_plays (run_audio_call s c).
Proof.
  intros Hinv. destruct c as [|src volume p|type p|code p|a];
    cbn [run_audio_call].
  - destruct (stop_spec s Hinv) as [_ Hall].
    intros b e He Hp. rewrite Forall_lookup in Hall.
    rewrite (Hall b e He) in Hp. done.
  - by apply play_spec.
  - unfold AudioManager.playSound. cbv zeta.
    case_bool_decide; [by apply play_spec|done].
  - by apply play_spec.
  - intros b e He Hp. cbn [fst snd] in *.
    apply audio_pause_lookup in He as (e' & He' & Hpaused).
    destruct (Hpaused Hp) as [Hp' _]. by apply (Hinv b e').
Qed.

Lemma run_audio_only_current cs : only_current_plays (run_audio cs).
Proof.
  unfold run_audio.
  assert (only_current_plays (AudioManager.new, [])) as Hnew
    by (intros a e He; cbn [snd] in He; by rewrite lookup_nil in He).
  revert Hnew. generalize (AudioManager.new, @nil AudioElement).
  induction cs as [|c cs IH]; intros s Hs; [done|].
  cbn [foldl]. by apply IH, run_audio_call_only_current.
Qed.

(** At most one sound at a time: whatever is called on a new manager,
    in whatever order and whatever the platform does, at most one of
    the elements it made is playing, and that one is [currentAudio];
    right after [stop] none is playing and [currentAudio] is [null]. *)
Theorem audio_one_at_a_time (cs : list AudioCall) :
  (∀ a b ea eb,
     (run_audio cs).2 !! a = Some ea → (run_audio cs).2 !! b = Some eb →
     paused ea = false → paused eb = false → a = b) ∧
  only_current_plays (run_audio cs) ∧
  AudioManager.currentAudio (run_audio (cs ++ [AudioStop])).1 = None ∧
  Forall (λ e, paused e = true) (run_audio (cs ++ [AudioStop])).2.
Proof.
  pose proof (run_audio_only_current cs) as Hinv.
  split; [|split; [done|]].
  - intros a b ea eb Ha Hb Hpa Hpb.
    pose proof (Hinv a ea Ha Hpa). pose proof (Hinv b eb Hb Hpb). congruence.
  - unfold run_audio in *. rewrite foldl_app. cbn [foldl run_audio_call].
    by apply stop_spec.
Qed.

(** A [play] that fails before the new element is installed (no [Audio]
    on the platform, or a volume outside of [0, 1]) has still stopped
    the sound that was playing: afterwards nothing plays and
    [currentAudio] is [null]. *)
Theorem audio_failed_play_silences cs src volume p :
  p = NoAudio ∨ volume_in_range volume = false →
  AudioManager.currentAudio (run_audio (cs ++ [AudioPlay src volume p])).1
  = None ∧
  Forall (λ e, paused e = true)
    (run_audio (cs ++ [AudioPlay src volume p])).2.
Proof.
  intros Hfail. pose proof (run_audio_only_current cs) as Hinv.
  unfold run_audio in *. rewrite foldl_app. cbn [foldl run_audio_call].
  by apply play_spec.
Qed.

(** A sound is playing and the next [play] asks for the volume 2. *)
Lemma audio_failed_play_silences_witness :
  (Plays = NoAudio ∨ volume_in_range (QArith_base.Qmake 2 1) = false) ∧
  AudioManager.currentAudio
    (run_audio ([AudioPlaySound success Plays]
                ++ [AudioPlay "/audio/AD.mp3" (QArith_base.Qmake 2 1) Plays])).1
  = None ∧
  Forall (λ e, paused e = true)
    (run_audio ([AudioPlaySound success Plays]
                ++ [AudioPlay "/audio/AD.mp3" (QArith_base.Qmake 2 1) Plays])).2.
Proof.
  assert (Plays = NoAudio ∨ volume_in_range (QArith_base.Qmake 2 1) = false)
    as Hfail by (right; reflexivity).
  split; [exact Hfail|].
  exact (audio_failed_play_silences [AudioPlaySound success Plays]
           "/audio/AD.mp3" (QArith_base.Qmake 2 1) Plays Hfail).
Defined.

(** Two sounds in a row: the first element is paused, the second plays
    at the volume 0.7 from the file named by the upper-case code. *)
Example audio_sample :
  run_audio [AudioPlaySound success Plays; AudioPlayCountryName "ad" Plays]
  = ({| AudioManager.currentAudio := Some 1 |},
     [ {| audio_src := "/sounds/success_sound.mp3";
          audio_volume := QArith_base.Qmake 1 2; paused := true |};
       {| audio_src := "/audio/AD.mp3";
          audio_volume := QArith_base.Qmake 7 10; paused := false |} ]).
Proof. by vm_compute. Qed.

(** * The answer grid *)

Lemma NoDup_filter_eq_length {A} `{EqDecision A} (l : list A) (x : A) :
  NoDup l → x ∈ l → length (filter (λ y, y = x) l) = 1.
Proof.
  induction 1 as [|a l Ha Hnd IH]; intros Hx; [by apply elem_of_nil in Hx|].
  destruct (decide (a = x)) as [->|Hne].
  - rewrite filter_cons_True by done. cbn [length]. f_equal.
    rewrite filter_none; [done|]. intros y Hy ->. done.
  - rewrite filter_cons_False by done. apply IH.
    apply elem_of_cons in Hx as [->|Hx]; done.
Qed.

(** The buttons after an answer, for options with pairwise-distinct
    codes one of which is the correct code: exactly one button is drawn
    as correct; a button is drawn as wrong exactly when it is the
    selected one and not the correct one, so at most one is; none is
    idle.  The selected button is drawn as wrong exactly when
    [submitAnswer] reported [correct = false] for it.  Before an answer
    every button is idle. *)
Theorem getStatus_marks (codes : list string) (expected : string)
    (selectedCode : option string) :
  NoDup codes →
  expected ∈ codes →
  length (filter (λ c, AnswerGrid.getStatus true expected selectedCode c
                       = AnswerGrid.correct) codes) = 1 ∧
  (∀ c, AnswerGrid.getStatus true expected selectedCode c = AnswerGrid.wrong
        ↔ selectedCode = Some c ∧ c ≠ expected) ∧
  length (filter (λ c, AnswerGrid.getStatus true expected selectedCode c
                       = AnswerGrid.wrong) codes) ≤ 1 ∧
  (∀ c, AnswerGrid.getStatus true expected selectedCode c
        ≠ AnswerGrid.idle) ∧
  (∀ c q, expected = correctCode q →
          (AnswerGrid.getStatus true expected (Some c) c = AnswerGrid.wrong
           ↔ isCorrect q c = false)) ∧
  (∀ c, AnswerGrid.getStatus false expected selectedCode c
        = AnswerGrid.idle).
Proof.
  intros Hnd Hin.
  assert (∀ c, AnswerGrid.getStatus true expected selectedCode c
               = AnswerGrid.correct ↔ c = expected) as Hcorrect.
  { intros c. unfold AnswerGrid.getStatus. cbn [negb].
    repeat case_bool_decide; split; done. }
  assert (∀ sel c, AnswerGrid.getStatus true expected sel c
                   = AnswerGrid.wrong ↔ sel = Some c ∧ c ≠ expected)
    as Hwrong.
  { intros sel c. unfold AnswerGrid.getStatus. cbn [negb].
    destruct (decide (c = expected)) as [Heq|Hne].
    - rewrite bool_decide_eq_true_2 by done. split; [done|by intros [_ ?]].
    - rewrite bool_decide_eq_false_2 by done.
      destruct (decide (Some c = sel)) as [<-|Hs].
      + by rewrite bool_decide_eq_true_2 by done.
      + rewrite bool_decide_eq_false_2 by done. split; [done|].
        intros [-> _]. done. }
  split; [|split; [apply Hwrong|split; [|split; [|split]]]].
  - rewrite (list_filter_iff _ (λ c, c = expected)) by apply Hcorrect.
    by apply NoDup_filter_eq_length.
  - destruct selectedCode as [s|].
    + rewrite (list_filter_iff _ (λ c, c = s ∧ s ≠ expected)).
      2:{ intros c. rewrite Hwrong. split.
          - intros [[= ->] ?]. done.
          - intros [-> ?]. done. }
      destruct (decide (s ∈ codes ∧ s ≠ expected)) as [[Hs Hne]|Hno].
      * rewrite (list_filter_iff _ (λ c, c = s)) by (intros c; tauto).
        by rewrite NoDup_filter_eq_length.
      * rewrite filter_none; [cbn; lia|].
        intros c Hc [-> ?]. tauto.
    + rewrite filter_none; [cbn; lia|].
      intros c _ [? _]%Hwrong. done.
  - intros c. unfold AnswerGrid.getStatus. cbn [negb].
    by repeat case_bool_decide.
  - intros c q ->. rewrite Hwrong. unfold isCorrect.
    rewrite bool_decide_eq_false. tauto.
  - done.
Qed.

(** The four options of the first question of the sample round, AF
    selected where AD is asked. *)
Lemma getStatus_marks_witness :
  NoDup ["AE"; "AG"; "AF"; "AD"] ∧
  "AD" ∈ ["AE"; "AG"; "AF"; "AD"] ∧
  AnswerGrid.getStatus true "AD" (Some "AF") <$> ["AE"; "AG"; "AF"; "AD"]
  = [AnswerGrid.dimmed; AnswerGrid.dimmed; AnswerGrid.wrong;
     AnswerGrid.correct] ∧
  length (filter (λ c, AnswerGrid.getStatus true "AD" (Some "AF") c
                       = AnswerGrid.correct) ["AE"; "AG"; "AF"; "AD"]) = 1.
Proof.
  assert (NoDup ["AE"; "AG"; "AF"; "AD"]) as Hnd by compute_done.
  assert ("AD" ∈ ["AE"; "AG"; "AF"; "AD"]) as Hin by compute_done.
  split; [exact Hnd|]. split; [exact Hin|]. split; [reflexivity|].
  exact (proj1 (getStatus_marks ["AE"; "AG"; "AF"; "AD"] "AD" (Some "AF")
                  Hnd Hin)).
Defined.

(** * The page *)

Lemma score_bound_move g m :
  score g ≤ score_bound g →
  score (make_move g m) ≤ score_bound (make_move g m).
Proof. apply (make_move_score_bound g m). Qed.

Lemma syncState_fields w pg :
  gameRef (syncState w pg) = gameRef pg ∧
  audioRef (syncState w pg) = audioRef pg ∧
  screen (syncState w pg) = screen pg ∧
  lastContinent (syncState w pg) = lastContinent pg ∧
  timers (syncState w pg) = timers pg.
Proof. unfold syncState. by destruct (currentQuestion (gameRef pg)). Qed.

Lemma syncState_synced pg pw q :
  currentQuestion (gameRef pg) = Some q →
  answered (gameRef pg) = false →
  timers pg = 0 →
  quiz_synced q (syncState (engine pw) pg, pw).
Proof.
  intros Hq Hans Ht. unfold quiz_synced, syncState. cbn [fst snd].
  rewrite Hq. cbn. by rewrite Hq, Hans, Ht.
Qed.

(** [startGame] from the menu, or again from the end of a round. *)
Lemma startGame_inv records c s :
  page_inv records s →
  screen s.1 = menu ∨ (screen s.1 = gameover ∧ c = lastContinent s.1) →
  page_inv records (startGame c s).2 ∧
  (if bool_decide (length (pool_elems records (Some c)) < OPTIONS_COUNT)
   then (startGame c s).1
        = Throw (TooFewCountries (length (pool_elems records (Some c)))
                   (Some c)) ∧
        screen s.1 = menu ∧
        screen (startGame c s).2.1 = menu
   else (startGame c s).1 = Normal tt ∧ screen (startGame c s).2.1 = quiz).
Proof.
  intros (Hloc & Hcat & Hscore & Hscreen) Hfrom.
  destruct s as [pg pw]. cbn [fst snd] in *.
  assert (timers pg = 0) as Htimers.
  { destruct Hfrom as [Hs|[Hs _]]; rewrite Hs in Hscreen; tauto. }
  unfold startGame. cbn [fst snd]. cbv zeta.
  cbn [setLastContinent gameRef].
  rewrite start_unfold, Hcat.
  set (P := pool_elems records (Some c)).
  destruct (array_new_spec P (engine pw)) as (_ & Hel & Hn & Hext).
  set (w1 := (array_new P (engine pw)).2) in *.
  case_bool_decide as Hlen; cbn [fst snd].
  - destruct Hfrom as [Hs|[Hs ->]].
    + split; [|split; [done|]; split; [done|]; exact Hs]. unfold page_inv.
      cbn [fst snd set_gameRef setLastContinent gameRef engine screen timers].
      split; [destruct Hext; lia|]. split; [by rewrite (proj2 Hext)|].
      split; [done|]. by rewrite Hs.
    + rewrite Hs in Hscreen. destruct Hscreen as (_ & Hpool & _).
      fold P in Hpool. lia.
  - set (r := generate (next (engine pw)) QUESTIONS_PER_ROUND w1).
    pose proof (generate_extends (next (engine pw)) QUESTIONS_PER_ROUND w1)
      as Hext'. fold r in Hext'.
    assert (extends (engine pw) r.2) as Hall by by eapply extends_trans.
    assert (length r.1 = 10 `min` length P) as Hqs.
    { unfold r. change QUESTIONS_PER_ROUND with (Z.of_nat 10).
      by rewrite generate_length, Hel. }
    destruct (lookup_lt_is_Some_2 r.1 0) as [q Hq];
      [unfold OPTIONS_COUNT in Hlen; lia|].
    set (pg1 := set_gameRef (started (gameRef pg) r.1) _).
    assert (currentQuestion (gameRef pg1) = Some q) as Hcur.
    { unfold currentQuestion. cbn.
      rewrite bool_decide_eq_false_2; [done|].
      unfold OPTIONS_COUNT in Hlen. lia. }
    set (pw1 := {| engine := r.2; audio_elements := audio_elements pw |}).
    pose proof (syncState_synced pg1 pw1 q Hcur eq_refl Htimers) as Hsync.
    destruct (syncState_fields r.2 pg1) as (Hg & _ & _ & Hl & Ht).
    split; [|done]. unfold page_inv.
    cbn [fst snd setScreen gameRef engine screen timers lastContinent].
    rewrite Hg, Hl. cbn [pg1 set_gameRef gameRef lastContinent started allCountries].
    change (engine pw1) with r.2.
    split; [destruct Hall; lia|]. split; [by rewrite (proj2 Hall)|].
    split; [cbn; lia|]. split; [cbn [setLastContinent lastContinent]; fold P; lia|].
    exists q. exact Hsync.
Qed.

Lemma currentQuestion_Some g q :
  currentQuestion g = Some q ↔ questions g !! currentIndex g = Some q.
Proof.
  unfold currentQuestion. case_bool_decide as Hle; [|done].
  split; [done|]. intros Hq%lookup_lt_Some. lia.
Qed.

(** A click on a flag of the quiz screen. *)
Lemma handleAnswer_inv records c p s :
  page_inv records s →
  screen s.1 = quiz →
  (handleAnswer c p s).1 = Normal tt ∧
  page_inv records (handleAnswer c p s).2 ∧
  screen (handleAnswer c p s).2.1 = quiz.
Proof.
  intros (Hloc & Hcat & Hscore & Hscreen) Hquiz.
  destruct s as [pg pw]. cbn [fst snd] in *.
  rewrite Hquiz in Hscreen. destruct Hscreen as (Hpool & q & Hsync).
  destruct Hsync as (Hq & Hans & Ht & Hs & Hn & Htot & Hc & Hname & Hopts).
  cbn [fst snd] in *.
  unfold handleAnswer. cbn [fst snd].
  destruct (shown_answered (display pg)) eqn:Hshown.
  - cbn [fst snd]. split; [done|]. split; [|done].
    unfold page_inv. cbn [fst snd]. rewrite Hquiz.
    repeat (split; [done|]). exists q. unfold quiz_synced. cbn [fst snd].
    by rewrite Hshown.
  - symmetry in Hans. apply currentQuestion_Some in Hq as Hlookup.
    cbv zeta.
    rewrite (submitAnswer_in_round c (gameRef pg) q Hans Hlookup).
    cbn [fst snd]. split; [done|]. split; [|done].
    pose proof (score_bound_move (gameRef pg) (Answer c) Hscore) as Hbound.
    cbn [make_move] in Hbound.
    rewrite (submitAnswer_in_round c (gameRef pg) q Hans Hlookup) in Hbound.
    cbn [snd] in Hbound.
    unfold page_inv.
    cbn [fst snd set_timers set_audioRef set_display set_gameRef
           gameRef engine screen timers lastContinent display allCountries].
    rewrite Hquiz. split; [done|]. split; [done|]. split; [done|].
    split; [done|]. exists q. unfold quiz_synced.
    cbn [fst snd set_timers set_audioRef set_display set_gameRef
           gameRef engine screen timers lastContinent display
           shown_answered shown_score shown_questionNumber
           shown_totalQuestions shown_correctCode countryName shown_options
           answered score].
    rewrite Hans in Ht. rewrite Ht.
    split; [by apply currentQuestion_Some|].
    split; [done|]. split; [done|]. split; [done|].
    split; [exact Hn|]. split; [exact Htot|].
    split; [exact Hc|]. split; [exact Hname|exact Hopts].
Qed.

(** A timeout that fires. *)
Lemma advance_timer_inv records p s n :
  page_inv records s →
  timers s.1 = S n →
  (advance_timer p (set_timers n s.1, s.2)).1 = Normal tt ∧
  page_inv records (advance_timer p (set_timers n s.1, s.2)).2.
Proof.
  intros (Hloc & Hcat & Hscore & Hscreen) Htimers.
  destruct s as [pg pw]. cbn [fst snd] in *.
  destruct (screen pg) eqn:Hquiz;
    [lia| |destruct Hscreen as [? _]; lia].
  destruct Hscreen as (Hpool & q & Hsync).
  destruct Hsync as (Hq & Hans & Ht & Hs & Hn & Htot & Hc & Hname & Hopts).
  cbn [fst snd] in *.
  destruct (answered (gameRef pg)) eqn:Hanswered; [|lia].
  assert (n = 0) as -> by lia.
  pose proof (score_bound_move (gameRef pg) Advance Hscore) as Hbound.
  cbn [make_move] in Hbound.
  unfold advance_timer. cbn [fst snd]. cbv zeta.
  change (gameRef (set_timers 0 pg)) with (gameRef pg).
  set (g1 := (nextQuestion (gameRef pg)).2) in *.
  destruct (nextQuestion (gameRef pg)).1 eqn:Hmore; cbn [fst snd].
  - split; [done|].
    assert (∃ q', currentQuestion g1 = Some q') as [q' Hq'].
    { cbn [nextQuestion fst] in Hmore. apply negb_true_iff in Hmore.
      unfold isGameOver in Hmore. apply bool_decide_eq_false in Hmore.
      cbn [questions currentIndex] in Hmore.
      destruct (lookup_lt_is_Some_2 (questions (gameRef pg))
                  (currentIndex (gameRef pg) + 1)) as [q' Hq']; [lia|].
      exists q'. apply currentQuestion_Some. exact Hq'. }
    set (pg1 := set_gameRef g1 (set_timers 0 pg)).
    pose proof (syncState_synced pg1 pw q' Hq' eq_refl eq_refl) as Hsync.
    destruct (syncState_fields (engine pw) pg1) as (Hg & _ & Hsc & Hl & _).
    unfold page_inv. cbn [fst snd]. rewrite Hg, Hsc, Hl.
    cbn [pg1 set_gameRef set_timers gameRef screen lastContinent].
    rewrite Hquiz. split; [done|]. split; [done|]. split; [done|].
    split; [done|]. by exists q'.
  - split; [done|]. unfold AudioManager.playSound. cbv zeta.
    assert (isGameOver g1 = true) as Hover.
    { cbn [nextQuestion fst] in Hmore. by apply negb_false_iff in Hmore. }
    unfold page_inv.
    cbn [fst snd setScreen set_audioRef set_gameRef set_timers
           gameRef engine screen timers lastContinent display].
    split; [done|]. split; [done|]. split; [done|].
    split; [done|]. split; [done|]. split; [done|].
    split; [by rewrite Hs|by rewrite Htot].
Qed.

Lemma playAudio_inv records p s :
  page_inv records s →
  (playAudio p s).1 = Normal tt ∧ page_inv records (playAudio p s).2.
Proof.
  intros Hinv. destruct s as [pg pw]. unfold playAudio. cbn [fst snd].
  destruct (currentQuestion (gameRef pg)); cbn [fst snd]; [|done].
  split; [done|]. exact Hinv.
Qed.

(** Every handler keeps [page_inv], and only a continent button of the
    menu can end with an exception. *)
Lemma fire_inv records ev s r :
  page_inv records s →
  fire ev s = Some r →
  page_inv records r.2 ∧
  (r.1 = Normal tt ∨
   screen s.1 = menu ∧
   ∃ c, ev = SelectContinent c ∧
        length (pool_elems records (Some c)) < OPTIONS_COUNT ∧
        r.1 = Throw (TooFewCountries (length (pool_elems records (Some c)))
                       (Some c))).
Proof.
  intros Hinv. unfold fire.
  destruct ev as [c|c p|p| | |p]; destruct (screen s.1) eqn:Hscreen;
    try done.
  - intros [= <-].
    destruct (startGame_inv records c s Hinv) as [Hinv' Hres]; [by left|].
    split; [done|]. case_bool_decide as Hlen.
    + right. split; [done|]. exists c. by destruct Hres as (-> & _).
    + left. by destruct Hres.
  - intros [= <-].
    destruct (handleAnswer_inv records c p s Hinv Hscreen) as (-> & ? & _).
    by split; [|left].
  - intros [= <-].
    destruct (playAudio_inv records p s Hinv) as [-> ?]. by split; [|left].
  - intros [= <-].
    destruct (startGame_inv records (lastContinent s.1) s Hinv)
      as [Hinv' Hres]; [by right|].
    split; [done|]. case_bool_decide as Hlen.
    + destruct Hres as (_ & Hmenu & _). congruence.
    + left. by destruct Hres.
  - intros [= <-]. split; [|by left].
    destruct Hinv as (H1 & H2 & H3 & H4). rewrite Hscreen in H4.
    unfold page_inv. cbn [fst snd setScreen gameRef engine screen timers].
    by destruct H4 as (? & _).
  - destruct (timers s.1) as [|n] eqn:Ht; [done|]. intros [= <-].
    destruct (advance_timer_inv records p s n Hinv Ht) as [-> ?].
    by split; [|left].
  - destruct (timers s.1) as [|n] eqn:Ht; [done|]. intros [= <-].
    destruct (advance_timer_inv records p s n Hinv Ht) as [-> ?].
    by split; [|left].
  - destruct (timers s.1) as [|n] eqn:Ht; [done|]. intros [= <-].
    destruct (advance_timer_inv records p s n Hinv Ht) as [-> ?].
    by split; [|left].
Qed.

Lemma run_page_inv records evs : ∀ s,
  page_inv records s →
  page_inv records (run_page evs s).2 ∧ Forall ends_well (run_page evs s).1.
Proof.
  induction evs as [|ev evs IH]; intros s Hinv; [by split|].
  cbn [run_page]. destruct (fire ev s) as [r|] eqn:Hfire; [|by apply IH].
  destruct (fire_inv records ev s r Hinv Hfire) as [Hinv' Hres].
  destruct (IH r.2 Hinv') as [Hfinal Hall]. cbn [fst snd].
  split; [done|]. constructor; [|done].
  destruct Hres as [->|(_ & c & _ & _ & ->)]; [by left|right; eauto].
Qed.

Lemma page_init_inv catalog w :
  catalog < next w → page_inv (arrays w catalog) (page_init catalog w).
Proof.
  intros Hcat. unfold page_inv, page_init. cbn. repeat split; [done|lia].
Qed.

Lemma fire_allCountries ev s r :
  fire ev s = Some r →
  allCountries (gameRef r.2.1) = allCountries (gameRef s.1).
Proof.
  unfold fire.
  destruct ev as [c|c p|p| | |p]; destruct (screen s.1);
    try done; try (destruct (timers s.1) as [|n]; [done|]);
    intros [= <-].
  1,4: unfold startGame; cbv zeta;
    match goal with |- context [start ?f ?g ?w] =>
      pose proof (start_allCountries f g w) as Hstart;
      destruct (start f g w).1.1; cbn [fst snd setScreen gameRef];
      rewrite ?(proj1 (syncState_fields _ _)); exact Hstart
    end.
  - unfold handleAnswer. destruct (shown_answered _); [done|]. cbv zeta.
    pose proof (proj1 (proj2 (make_move_fields (gameRef s.1) (Answer c))))
      as Hmove. cbn [make_move] in Hmove.
    by destruct (submitAnswer c (gameRef s.1)).1 as [[?|]|].
  - unfold playAudio. by destruct (currentQuestion _).
  - done.
  - unfold advance_timer. cbv zeta.
    destruct (nextQuestion _).1; cbn [fst snd];
      rewrite ?(proj1 (syncState_fields _ _)); done.
  - unfold advance_timer. cbv zeta.
    destruct (nextQuestion _).1; cbn [fst snd];
      rewrite ?(proj1 (syncState_fields _ _)); done.
  - unfold advance_timer. cbv zeta.
    destruct (nextQuestion _).1; cbn [fst snd];
      rewrite ?(proj1 (syncState_fields _ _)); done.
Qed.

Lemma run_page_allCountries evs : ∀ s,
  allCountries (gameRef (run_page evs s).2.1) = allCountries (gameRef s.1).
Proof.
  induction evs as [|ev evs IH]; intros s; [done|].
  cbn [run_page]. destruct (fire ev s) as [r|] eqn:Hfire; [|by apply IH].
  cbn [snd]. rewrite IH. by eapply fire_allCountries.
Qed.

(** Whatever happens to the page, in whatever order: every handler
    ends normally or with the error of [start] for a continent with
    fewer than 4 countries; [submitAnswer] is never called where it
    throws; and the catalogue keeps its records. *)
Theorem page_handlers_end_well catalog w evs :
  catalog < next w →
  Forall ends_well (run_page evs (page_init catalog w)).1 ∧
  Forall (λ c, c ≠ Throw TypeError) (run_page evs (page_init catalog w)).1 ∧
  arrays (engine (run_page evs (page_init catalog w)).2.2) catalog
  = arrays w catalog.
Proof.
  intros Hcat.
  destruct (run_page_inv (arrays w catalog) evs (page_init catalog w))
    as [(_ & Hrec & _) Hall]; [by apply page_init_inv|].
  split; [done|]. split.
  - eapply Forall_impl; [exact Hall|].
    by intros c [->|(? & ? & ->)].
  - by rewrite run_page_allCountries in Hrec.
Qed.

(** From the end of a round, "Opnieuw spelen" always starts a new
    round: [start] cannot throw for [lastContinent]. *)
Theorem page_replay_succeeds catalog w evs :
  catalog < next w →
  screen (run_page evs (page_init catalog w)).2.1 = gameover →
  ∃ s', fire ClickReplay (run_page evs (page_init catalog w)).2
        = Some (Normal tt, s') ∧
        screen s'.1 = quiz.
Proof.
  intros Hcat Hover.
  destruct (run_page_inv (arrays w catalog) evs (page_init catalog w))
    as [Hinv _]; [by apply page_init_inv|].
  set (s := (run_page evs (page_init catalog w)).2) in *.
  unfold fire. rewrite Hover.
  destruct (startGame_inv (arrays w catalog) (lastContinent s.1) s Hinv)
    as [_ Hres]; [by right|].
  case_bool_decide as Hlen.
  - destruct Hres as (_ & Hmenu & _). congruence.
  - destruct Hres as [Hok Hquiz].
    exists (startGame (lastContinent s.1) s).2. split; [|done].
    rewrite <- Hok. by destruct (startGame _ _).
Qed.

(** At most one timeout is pending at any time, and one is pending
    exactly while the quiz screen shows an answered question. *)
Theorem page_one_timer catalog w evs :
  catalog < next w →
  timers (run_page evs (page_init catalog w)).2.1 ≤ 1 ∧
  (timers (run_page evs (page_init catalog w)).2.1 = 1
   ↔ screen (run_page evs (page_init catalog w)).2.1 = quiz ∧
     shown_answered (display (run_page evs (page_init catalog w)).2.1)
     = true).
Proof.
  intros Hcat.
  destruct (run_page_inv (arrays w catalog) evs (page_init catalog w))
    as [(_ & _ & _ & Hscreen) _]; [by apply page_init_inv|].
  set (s := (run_page evs (page_init catalog w)).2) in *.
  destruct (screen s.1).
  - rewrite Hscreen. split; [lia|]. split; [lia|by intros [? _]].
  - destruct Hscreen as (_ & q & _ & -> & -> & _).
    destruct (answered (gameRef s.1)).
    + split; [lia|]. by split.
    + split; [lia|]. split; [lia|by intros [_ ?]].
  - destruct Hscreen as (-> & _). split; [lia|]. split; [lia|by intros [? _]].
Qed.

(** On the quiz screen the state variables show the game: its current
    question is there, and the answered flag, the score, the question
    number, the number of questions, the correct code, the name asked
    for and the options on the page are those of the game. *)
Theorem page_quiz_shows_game catalog w evs :
  catalog < next w →
  screen (run_page evs (page_init catalog w)).2.1 = quiz →
  ∃ q, quiz_synced q (run_page evs (page_init catalog w)).2.
Proof.
  intros Hcat Hquiz.
  destruct (run_page_inv (arrays w catalog) evs (page_init catalog w))
    as [(_ & _ & _ & Hscreen) _]; [by apply page_init_inv|].
  rewrite Hquiz in Hscreen. by destruct Hscreen as [_ ?].
Qed.

(** On the end screen the round is over, the score and the number of
    questions shown are those of the game, and the score is at most the
    number of questions. *)
Theorem page_gameover_shows_score catalog w evs :
  catalog < next w →
  screen (run_page evs (page_init catalog w)).2.1 = gameover →
  isGameOver (gameRef (run_page evs (page_init catalog w)).2.1) = true ∧
  shown_score (display (run_page evs (page_init catalog w)).2.1)
  = score (gameRef (run_page evs (page_init catalog w)).2.1) ∧
  shown_totalQuestions (display (run_page evs (page_init catalog w)).2.1)
  = totalQuestions (gameRef (run_page evs (page_init catalog w)).2.1) ∧
  shown_score (display (run_page evs (page_init catalog w)).2.1)
  ≤ shown_totalQuestions (display (run_page evs (page_init catalog w)).2.1).
Proof.
  intros Hcat Hover.
  destruct (run_page_inv (arrays w catalog) evs (page_init catalog w))
    as [(_ & _ & Hscore & Hscreen) _]; [by apply page_init_inv|].
  set (s := (run_page evs (page_init catalog w)).2) in *.
  rewrite Hover in Hscreen. destruct Hscreen as (_ & _ & Hend & Hs & Ht).
  split; [done|]. split; [done|]. split; [done|].
  rewrite Hs, Ht. unfold score_bound, totalQuestions, isGameOver in *.
  apply bool_decide_eq_true in Hend.
  rewrite bool_decide_eq_false_2, andb_false_r in Hscore by lia. lia.
Qed.

(** ** The page on the catalogue of 5 *)

(** Two continent buttons and two clicks on flags: the first handler
    ends with the error of [start], the others normally. *)
Lemma page_handlers_end_well_witness :
  0 < next (sample_world catalog5 sample_draws) ∧
  (run_page sample_answer_events sample_page).1
  = [Throw (TooFewCountries 2 (Some "Europe")); Normal tt; Normal tt;
     Normal tt] ∧
  Forall (λ c, c ≠ Throw TypeError)
    (run_page sample_answer_events sample_page).1.
Proof.
  assert (0 < next (sample_world catalog5 sample_draws)) as H0
    by (simpl; lia).
  split; [exact H0|]. split; [by vm_compute|].
  exact (proj1 (proj2 (page_handlers_end_well 0
                         (sample_world catalog5 sample_draws)
                         sample_answer_events H0))).
Defined.

(** After the whole round. *)
Lemma page_replay_succeeds_witness :
  0 < next (sample_world catalog5 sample_draws) ∧
  screen (run_page sample_round_events sample_page).2.1 = gameover ∧
  ∃ s', fire ClickReplay (run_page sample_round_events sample_page).2
        = Some (Normal tt, s') ∧
        screen s'.1 = quiz.
Proof.
  assert (0 < next (sample_world catalog5 sample_draws)) as H0
    by (simpl; lia).
  assert (screen (run_page sample_round_events sample_page).2.1 = gameover)
    as Hover by (by vm_compute).
  split; [exact H0|]. split; [exact Hover|].
  exact (page_replay_succeeds 0 (sample_world catalog5 sample_draws)
           sample_round_events H0 Hover).
Defined.

(** After the first answer of a round. *)
Lemma page_one_timer_witness :
  0 < next (sample_world catalog5 sample_draws) ∧
  timers (run_page sample_answer_events sample_page).2.1 = 1 ∧
  timers (run_page sample_answer_events sample_page).2.1 ≤ 1.
Proof.
  assert (0 < next (sample_world catalog5 sample_draws)) as H0
    by (simpl; lia).
  split; [exact H0|]. split; [by vm_compute|].
  exact (proj1 (page_one_timer 0 (sample_world catalog5 sample_draws)
                  sample_answer_events H0)).
Defined.

(** After the first answer of a round. *)
Lemma page_quiz_shows_game_witness :
  0 < next (sample_world catalog5 sample_draws) ∧
  screen (run_page sample_answer_events sample_page).2.1 = quiz ∧
  ∃ q, quiz_synced q (run_page sample_answer_events sample_page).2.
Proof.
  assert (0 < next (sample_world catalog5 sample_draws)) as H0
    by (simpl; lia).
  assert (screen (run_page sample_answer_events sample_page).2.1 = quiz)
    as Hquiz by (by vm_compute).
  split; [exact H0|]. split; [exact Hquiz|].
  exact (page_quiz_shows_game 0 (sample_world catalog5 sample_draws)
           sample_answer_events H0 Hquiz).
Defined.

(** After the whole round: one right answer out of five. *)
Lemma page_gameover_shows_score_witness :
  0 < next (sample_world catalog5 sample_draws) ∧
  screen (run_page sample_round_events sample_page).2.1 = gameover ∧
  shown_score (display (run_page sample_round_events sample_page).2.1) = 1 ∧
  shown_score (display (run_page sample_round_events sample_page).2.1)
  ≤ shown_totalQuestions
      (display (run_page sample_round_events sample_page).2.1).
Proof.
  assert (0 < next (sample_world catalog5 sample_draws)) as H0
    by (simpl; lia).
  assert (screen (run_page sample_round_events sample_page).2.1 = gameover)
    as Hover by (by vm_compute).
  split; [exact H0|]. split; [exact Hover|]. split; [by vm_compute|].
  exact (proj2 (proj2 (proj2
           (page_gameover_shows_score 0 (sample_world catalog5 sample_draws)
              sample_round_events H0 Hover)))).
Defined.
